(** * Skeleton inflation of the readyplayerme-avatar component

    A shallow embedding of [_inflate], the method that turns the node
    hierarchy of a loaded avatar model into scene entities, followed by
    the properties the specification states about it.

    Two revisions of the method are embedded: the one at line 49 of
    [src/components/readyplayerme-avatar.js] and the earlier one at
    line 37 of [unnamed/part_000]. They differ in how the entity is
    chosen for a node whose template has no content, and in the [name]
    attribute, which only the later one sets. (The first file goes on,
    from line 217, with a later copy of the component. Its [_inflate]
    is the one of line 49 without the [name] attribute, and it notes
    the two eye nodes on the component; it is not embedded.)

    What is embedded and how:
    - a node of the model ([THREE.Object3D]) is a finite tree
      [Object3D.t]. The loader hands over a tree without shared
      children, so a node mutated in place is the node the call returns
      next to its result;
    - [el.setObject3D] re-parents the node under the new entity, which
      takes it out of its old parent's live [children] array: after the
      loop that array holds the children that were not turned into
      entities;
    - [THREE.MathUtils.generateUUID] is random: a run is parameterised
      by the sequence of tokens it is handed, and the state threaded
      through the calls is how many it has drawn;
    - numbers are rationals: the code copies coordinates and writes the
      constants of the identity matrix, it computes nothing else with
      them; the trigonometry of [Euler.setFromQuaternion] and
      [Quaternion.setFromEuler] is kept symbolic;
    - a thrown JavaScript exception is the [Throw] completion;
    - of the DOM and of the framework's entities there is what
      [_inflate] reads and writes: attributes, class list, child
      elements, [object3D] and [object3DMap]. Attributes stay
      attributes: turning [position] and [rotation] into a placement is
      the framework's work when the entity is attached. [classList.add]
      and [querySelector] are total here; that the DOM rejects an empty
      class token, or a selector that does not parse, is outside the
      embedding. *)

From Stdlib Require Import QArith.
From stdpp Require Import gmap strings list fin_maps.
From Stdlib Require Import Ascii String.

Local Open Scope string_scope.
Local Open Scope list_scope.

(** ** three.js values *)

Record Vector3 := mkVector3 { v_x : Q; v_y : Q; v_z : Q }.

Definition zero3 : Vector3 := mkVector3 0 0 0.
Definition one3 : Vector3 := mkVector3 1 1 1.

(** [Euler] angles carry their axis order (a string such as 'XYZ').
    [EulerOfQuaternion q order] stands for the angles that
    [Euler.setFromQuaternion(q, order)] computes, and
    [QuaternionOfEuler e] for the result of [Quaternion.setFromEuler(e)],
    which [Object3D] runs whenever its [rotation] changes. *)
Inductive Euler :=
| Angles (ex ey ez : Q) (order : string)
| EulerOfQuaternion (q : Quaternion) (order : string)
with Quaternion :=
| Quat (qx qy qz qw : Q)
| QuaternionOfEuler (e : Euler).

Definition order (e : Euler) : string :=
  match e with
  | Angles _ _ _ o => o
  | EulerOfQuaternion _ o => o
  end.

(** A [Matrix4] is its sixteen elements, column-major. *)
Definition Matrix4 := list Q.

Definition identity : Matrix4 :=
  [1; 0; 0; 0;  0; 1; 0; 0;  0; 0; 1; 0;  0; 0; 0; 1]%Q.

(** A node of the loaded model. *)
Module Object3D.
#[warnings="-register-all"]
Inductive t := make {
  name : string;
  type : string;
  visible : bool;
  position : Vector3;
  rotation : Euler;
  quaternion : Quaternion;
  scale : Vector3;
  matrix : Matrix4;
  matrixAutoUpdate : bool;
  uuid : string;
  children : list t
}.
End Object3D.
Abbreviation Node := Object3D.t.

(** The [THREE.Group] every entity owns as [el.object3D]. *)
Module Group.
Record t := make {
  name : string;
  position : Vector3;
  rotation : Euler;
  quaternion : Quaternion;
  scale : Vector3;
  uuid : string;
  matrixNeedsUpdate : bool
}.
End Group.

(** ** Entities *)

(** An element of the scene markup. [attributes] leaves out [class],
    which is [classList]. *)
Module Element.
#[warnings="-register-all"]
Inductive t := make {
  tagName : string;
  attributes : gmap string string;
  classList : list string;
  children : list t;
  object3D : Group.t;
  object3DMap : gmap string Node
}.
End Element.
Abbreviation Element := Element.t.

(** A [<template data-name=...>] element below the component's element,
    with the first element of its content when it has one. *)
Record Template := mkTemplate {
  data_name : string;
  firstElementChild : option Element
}.

(** The component's [data]: the three visibility flags of its schema. *)
Record Data := mkData { hands : bool; shirt : bool; head : bool }.

(** How a call completes: it returns, or it throws. *)
Inductive Completion (A : Type) :=
| Normal (a : A)
| Throw (e : string).
Arguments Normal {A} a.
Arguments Throw {A} e.

(** The two revisions of [_inflate] under [src/]. *)
Inductive Revision :=
| Avatar      (* src/components/readyplayerme-avatar.js, line 49 *)
| Part000.    (* unnamed/part_000, line 37 *)

(** ** Entity operations *)

(** Modelled from the spec: the group of a newly constructed entity
    (A-Frame's entity constructor is not under src/): no offset, no
    rotation in the framework's 'YXZ' order, unit scale. *)
Definition newGroup : Group.t :=
  Group.make EmptyString zero3 (Angles 0 0 0 "YXZ") (Quat 0 0 0 1) one3
    EmptyString false.

(** Modelled from the spec: [document.createElement(tag)], "a default
    empty entity". *)
Definition createElement (tag : string) : Element :=
  Element.make tag ∅ [] [] newGroup ∅.

(** Modelled from the spec: [cloneNode(true)] on a template's content
    element: the markup (attributes, classes, child elements) is copied,
    each copy is an entity of its own with nothing attached yet. *)
Fixpoint cloneNode (e : Element) : Element :=
  Element.make (Element.tagName e) (Element.attributes e) (Element.classList e)
    (List.map cloneNode (Element.children e)) newGroup ∅.

(** Modelled from the spec: [el.setAttribute(attr, value)], "attribute
    set". *)
Definition setAttribute (attr value : string) (el : Element) : Element :=
  Element.make (Element.tagName el) (<[attr := value]> (Element.attributes el))
    (Element.classList el) (Element.children el)
    (Element.object3D el) (Element.object3DMap el).

(** Modelled from the spec: [el.appendChild(child)], "child-append". *)
Definition appendChild (child : Element) (el : Element) : Element :=
  Element.make (Element.tagName el) (Element.attributes el)
    (Element.classList el) (Element.children el ++ [child])
    (Element.object3D el) (Element.object3DMap el).

(** [el.classList.add(token)]: a token already present is not added
    again. *)
Definition classList_add (token : string) (el : Element) : Element :=
  Element.make (Element.tagName el) (Element.attributes el)
    (if bool_decide (token ∈ Element.classList el)
     then Element.classList el
     else Element.classList el ++ [token])
    (Element.children el)
    (Element.object3D el) (Element.object3DMap el).

Definition with_object3D (g : Group.t) (el : Element) : Element :=
  Element.make (Element.tagName el) (Element.attributes el)
    (Element.classList el) (Element.children el)
    g (Element.object3DMap el).

(** Modelled from the spec: [el.setObject3D(type, obj)], "attach a
    renderable object": the slot [type] of the entity now holds [obj]
    (an object held there before is dropped). *)
Definition setObject3D (type : string) (obj : Node) (el : Element) : Element :=
  Element.make (Element.tagName el) (Element.attributes el)
    (Element.classList el) (Element.children el)
    (Element.object3D el) (<[type := obj]> (Element.object3DMap el)).

(** ** Strings *)

(** The characters [\w] and [-] of the pattern [/[^\w-]/g]. *)
Definition is_word_or_hyphen (c : ascii) : bool :=
  let n := nat_of_ascii c in
  (Nat.leb 48 n && Nat.leb n 57)        (* 0-9 *)
  || (Nat.leb 65 n && Nat.leb n 90)     (* A-Z *)
  || (Nat.leb 97 n && Nat.leb n 122)    (* a-z *)
  || Nat.eqb n 95                       (* _ *)
  || Nat.eqb n 45.                      (* - *)

(** [s.replace(/[^\w-]/g, '')] *)
Fixpoint remove_invalid (s : string) : string :=
  match s with
  | EmptyString => EmptyString
  | String c rest =>
      if is_word_or_hyphen c then String c (remove_invalid rest)
      else remove_invalid rest
  end.

Definition lower (c : ascii) : ascii :=
  let n := nat_of_ascii c in
  if Nat.leb 65 n && Nat.leb n 90 then ascii_of_nat (n + 32) else c.

(** [s.toLowerCase()] on the ASCII type tags of three.js. *)
Fixpoint toLowerCase (s : string) : string :=
  match s with
  | EmptyString => EmptyString
  | String c rest => String (lower c) (toLowerCase rest)
  end.

(** ** Node mutations *)

Definition set_visible (v : bool) (node : Node) : Node :=
  Object3D.make (Object3D.name node) (Object3D.type node) v
    (Object3D.position node) (Object3D.rotation node)
    (Object3D.quaternion node) (Object3D.scale node)
    (Object3D.matrix node) (Object3D.matrixAutoUpdate node)
    (Object3D.uuid node) (Object3D.children node).

(** [node.rotation.setFromQuaternion(node.quaternion, order)]; the
    rotation's change callback then refreshes [node.quaternion]. *)
Definition rotation_setFromQuaternion (order : string) (node : Node) : Node :=
  let r := EulerOfQuaternion (Object3D.quaternion node) order in
  Object3D.make (Object3D.name node) (Object3D.type node)
    (Object3D.visible node) (Object3D.position node)
    r (QuaternionOfEuler r) (Object3D.scale node)
    (Object3D.matrix node) (Object3D.matrixAutoUpdate node)
    (Object3D.uuid node) (Object3D.children node).

(** [node.matrixAutoUpdate = false; node.matrix.identity();
    node.matrix.decompose(node.position, node.rotation, node.scale)].
    The matrix decomposed is the identity just written: its translation
    column is zero, its axes have length one, and its rotation has zero
    angles in whatever order [node.rotation] is in. *)
Definition reset_transform (node : Node) : Node :=
  let r := Angles 0 0 0 (order (Object3D.rotation node)) in
  Object3D.make (Object3D.name node) (Object3D.type node)
    (Object3D.visible node) zero3
    r (QuaternionOfEuler r) one3
    identity false
    (Object3D.uuid node) (Object3D.children node).

Definition set_uuid (u : string) (node : Node) : Node :=
  Object3D.make (Object3D.name node) (Object3D.type node)
    (Object3D.visible node) (Object3D.position node)
    (Object3D.rotation node) (Object3D.quaternion node) (Object3D.scale node)
    (Object3D.matrix node) (Object3D.matrixAutoUpdate node)
    u (Object3D.children node).

Definition set_children (cs : list Node) (node : Node) : Node :=
  Object3D.make (Object3D.name node) (Object3D.type node)
    (Object3D.visible node) (Object3D.position node)
    (Object3D.rotation node) (Object3D.quaternion node) (Object3D.scale node)
    (Object3D.matrix node) (Object3D.matrixAutoUpdate node)
    (Object3D.uuid node) cs.

(** ** Writes to [el.object3D] *)

(** [el.object3D.position.copy(v)] *)
Definition object3D_position_copy (v : Vector3) (el : Element) : Element :=
  let g := Element.object3D el in
  with_object3D
    (Group.make (Group.name g) v (Group.rotation g) (Group.quaternion g)
       (Group.scale g) (Group.uuid g) (Group.matrixNeedsUpdate g)) el.

(** [el.object3D.rotation.copy(e)]: angles and order are copied, and the
    group's quaternion follows its rotation. *)
Definition object3D_rotation_copy (e : Euler) (el : Element) : Element :=
  let g := Element.object3D el in
  with_object3D
    (Group.make (Group.name g) (Group.position g) e (QuaternionOfEuler e)
       (Group.scale g) (Group.uuid g) (Group.matrixNeedsUpdate g)) el.

Definition object3D_set_matrixNeedsUpdate (b : bool) (el : Element) : Element :=
  let g := Element.object3D el in
  with_object3D
    (Group.make (Group.name g) (Group.position g) (Group.rotation g)
       (Group.quaternion g) (Group.scale g) (Group.uuid g) b) el.

Definition object3D_set_name (n : string) (el : Element) : Element :=
  let g := Element.object3D el in
  with_object3D
    (Group.make n (Group.position g) (Group.rotation g)
       (Group.quaternion g) (Group.scale g) (Group.uuid g)
       (Group.matrixNeedsUpdate g)) el.

Definition object3D_set_uuid (u : string) (el : Element) : Element :=
  let g := Element.object3D el in
  with_object3D
    (Group.make (Group.name g) (Group.position g) (Group.rotation g)
       (Group.quaternion g) (Group.scale g) u
       (Group.matrixNeedsUpdate g)) el.

(** ** The loop over the children *)

(** What a call of [_inflate] hands back: the entity or nothing, the
    node as the call leaves it, and the number of tokens drawn. *)
Definition Outcome : Type := Completion (option Element * Node * nat).

Section ForOf.

Variable inflate : Node -> nat -> Outcome.

(** [for (const child of children) { ... }] over the copy
    [node.children.slice(0)]. [live] is the visited part of the live
    [node.children] array as it is now: a child that became an entity
    was moved under that entity by [setObject3D] and is gone from it, a
    child that did not is still there, as its call left it. *)
Fixpoint inflate_children (children : list Node)
    (childrenEntities : list Element) (live : list Node) (drawn : nat)
    : Completion (list Element * list Node * nat) :=
  match children with
  | [] => Normal (childrenEntities, live, drawn)
  | child :: rest =>
      match inflate child drawn with
      | Throw e => Throw e
      | Normal (Some childEntity, _, drawn') =>
          inflate_children rest (childrenEntities ++ [childEntity]) live drawn'
      | Normal (None, child', drawn') =>
          inflate_children rest childrenEntities (live ++ [child']) drawn'
      end
  end.

End ForOf.

(** ** [_inflate] *)

Section Inflate.

Variable revision : Revision.
(** [this.data] *)
Variable data : Data.
(** the [<template>] elements below [this.el], in document order *)
Variable templates : list Template.
(** the tokens [THREE.MathUtils.generateUUID()] returns, in call order *)
Variable generateUUID : nat -> string.

(** [this.el.querySelector('template[data-name=\'' + name + '\'')]: the
    first template whose [data-name] is [name]. *)
Definition querySelector (name : string) : option Template :=
  List.find (fun t => String.eqb (data_name t) name) templates.

(** The [switch] on the name of a 'SkinnedMesh' node. *)
Definition apply_visibility (node : Node) : Node :=
  if String.eqb (Object3D.type node) "SkinnedMesh" then
    if String.eqb (Object3D.name node) "Wolf3D_Hands" then
      set_visible (hands data) node
    else if String.eqb (Object3D.name node) "Wolf3D_Shirt" then
      set_visible (shirt data) node
    else
      set_visible (head data) node
  else node.

(** The entity to use for a node that is kept.
    readyplayerme-avatar.js:
      [if (nodeTemplate && nodeTemplate.content.firstElementChild)
         el = nodeTemplate.content.firstElementChild.cloneNode(true);
       else el = document.createElement('a-entity');]
    part_000:
      [nodeTemplate ? nodeTemplate.content.firstElementChild.cloneNode(true)
                    : document.createElement('a-entity')]
    where [cloneNode] is read off [null] when the template is empty. *)
Definition resolve_el (nodeTemplate : option Template) : Completion Element :=
  match nodeTemplate with
  | None => Normal (createElement "a-entity")
  | Some t =>
      match firstElementChild t with
      | Some content => Normal (cloneNode content)
      | None =>
          match revision with
          | Avatar => Normal (createElement "a-entity")
          | Part000 => Throw "TypeError"
          end
      end
  end.

(** The statements of [_inflate] after [el] is chosen. The entity holds
    the node object itself in its [object3DMap], so the slot shows the
    node with the [uuid] written by the last statement. *)
Definition wrap (node : Node) (el : Element) (childrenEntities : list Element)
    (drawn : nat) : Element * Node * nat :=
  let el := match revision with
            | Avatar => setAttribute "name" (Object3D.name node) el
            | Part000 => el
            end in
  let el := if String.eqb (Object3D.name node) "Scene"
            then setAttribute "rotation" "0 180 0"
                   (setAttribute "position" "0 -0.65 0" el)
            else el in
  let el := fold_left (fun el childEntity => appendChild childEntity el)
              childrenEntities el in
  let className :=
    remove_invalid (if String.eqb (Object3D.name node) EmptyString
                    then Object3D.uuid node else Object3D.name node) in
  let el := classList_add className el in
  let node := if negb (String.eqb (order (Object3D.rotation node)) "YXZ")
              then rotation_setFromQuaternion "YXZ" node
              else node in
  let el := object3D_position_copy (Object3D.position node) el in
  let el := object3D_rotation_copy (Object3D.rotation node) el in
  let el := object3D_set_matrixNeedsUpdate true el in
  let node := reset_transform node in
  let el := object3D_set_name (Object3D.name node) el in
  let el := object3D_set_uuid (Object3D.uuid node) el in
  let node := set_uuid (generateUUID drawn) node in
  let el := setObject3D (toLowerCase (Object3D.type node)) node el in
  (el, node, S drawn).

(** [_inflate: function (node)]. The visibility switch comes first; it
    does not touch [node.children], which the loop reads. Then the loop
    over the children, the lookup of the template, the decision to
    return nothing ([return;]) or to go on, the choice of [el], and the
    wrapping. An exception thrown by a call in the loop, or by the
    choice of [el], ends the call. *)
Fixpoint _inflate (node : Node) (drawn : nat) {struct node} : Outcome :=
  let visited := apply_visibility node in
  match inflate_children _inflate (Object3D.children node) [] [] drawn with
  | Throw e => Throw e
  | Normal (childrenEntities, live, drawn) =>
      let node := set_children live visited in
      let nodeTemplate := querySelector (Object3D.name node) in
      if negb (String.eqb (Object3D.name node) "Scene")
         && negb (bool_decide (is_Some nodeTemplate))
         && Nat.eqb (List.length childrenEntities) 0
      then Normal (None, node, drawn)
      else
        match resolve_el nodeTemplate with
        | Throw e => Throw e
        | Normal el =>
            let '(el, node, drawn) := wrap node el childrenEntities drawn in
            Normal (Some el, node, drawn)
        end
  end.

End Inflate.

Arguments wrap : simpl never.
Arguments resolve_el : simpl never.
Arguments querySelector : simpl never.

(** ** Notions the properties are stated with *)

(** The outcomes of the loop's calls, one per child of the copy, with
    the state handed from each call to the next. *)
Inductive Visits (inflate : Node -> nat -> Outcome)
  : list Node -> nat -> list (option Element * Node) -> nat -> Prop :=
| Visits_nil drawn : Visits inflate [] drawn [] drawn
| Visits_cons child rest drawn r child' drawn1 outs drawn2 :
    inflate child drawn = Normal (r, child', drawn1) ->
    Visits inflate rest drawn1 outs drawn2 ->
    Visits inflate (child :: rest) drawn ((r, child') :: outs) drawn2.

(** The entities among the outcomes, in order. *)
Definition entities (outs : list (option Element * Node)) : list Element :=
  omap fst outs.

(** The nodes among the outcomes that did not become an entity. *)
Definition kept (outs : list (option Element * Node)) : list Node :=
  omap (fun o => match fst o with Some _ => None | None => Some (snd o) end) outs.

(** All nodes strictly below a node. *)
Fixpoint descendants (node : Node) : list Node :=
  flat_map (fun child => child :: descendants child) (Object3D.children node).


(** The identity tokens of a node and of all nodes below it. *)
Fixpoint tree_uuids (node : Node) : list string :=
  Object3D.uuid node :: flat_map tree_uuids (Object3D.children node).

(** A pass over a subtree that applies the visibility switch to every
    node and does nothing else. *)
Fixpoint visit (data : Data) (node : Node) : Node :=
  set_children (List.map (visit data) (Object3D.children node))
    (apply_visibility data node).

(** The node the decision and the wrapping work on: the visibility
    switch applied, the live child array as the loop left it. *)
Definition after_loop (data : Data) (node : Node)
    (outs : list (option Element * Node)) : Node :=
  set_children (kept outs) (apply_visibility data node).

(** The inclusion rule read as a function of the node alone: the name
    is 'Scene', or a template carries the name, or a child is kept. *)
Fixpoint qualifies (templates : list Template) (node : Node) : bool :=
  String.eqb (Object3D.name node) "Scene"
  || bool_decide (is_Some (querySelector templates (Object3D.name node)))
  || existsb (qualifies templates) (Object3D.children node).

(** The child elements an entity has before the loop's entities are
    appended: those cloned with the template's content, none otherwise. *)
Definition shell_children (templates : list Template) (name : string)
    : list Element :=
  match querySelector templates name with
  | Some t =>
      match firstElementChild t with
      | Some content => List.map cloneNode (Element.children content)
      | None => []
      end
  | None => []
  end.

(** The state a call leaves behind (the state it started from when it
    threw). *)
Definition drawn_after (o : Outcome) (drawn : nat) : nat :=
  match o with
  | Normal (_, _, drawn') => drawn'
  | Throw _ => drawn
  end.

Section Run.

Variable inflate : Node -> nat -> Outcome.

Section RunChildren.
Variable run : Node -> nat -> list (Node * Outcome).
Fixpoint run_children (children : list Node) (drawn : nat)
    : list (Node * Outcome) :=
  match children with
  | [] => []
  | child :: rest =>
      run child drawn ++ run_children rest (drawn_after (inflate child drawn) drawn)
  end.
End RunChildren.

(** Every call made while [inflate node drawn] runs, with its argument
    and its outcome: the calls for the subtrees of the children, each
    from the state its predecessor left, then the call for the node. *)
Fixpoint run (node : Node) (drawn : nat) {struct node} : list (Node * Outcome) :=
  run_children run (Object3D.children node) drawn ++ [(node, inflate node drawn)].

End Run.

(** The identity tokens a call leaves in use: the node's, and the
    entity's when there is one. *)
Definition held (call : Node * Outcome) : list string :=
  match snd call with
  | Normal (Some el, node', _) =>
      [Group.uuid (Element.object3D el); Object3D.uuid node']
  | Normal (None, node', _) => [Object3D.uuid node']
  | Throw _ => []
  end.

(** Every registered template has content. *)
Definition templates_have_content (templates : list Template) : Prop :=
  Forall (fun t => is_Some (firstElementChild t)) templates.

(** The earlier revision reads [cloneNode] off the content element
    without looking whether there is one: it needs templates that have
    content. The later revision has no such need. *)
Definition content_where_needed (revision : Revision)
    (templates : list Template) : Prop :=
  revision = Part000 -> templates_have_content templates.

(** ** Sample inputs *)

Definition sample_data : Data := mkData true false true.

Fixpoint tally (k : nat) : string :=
  match k with
  | O => EmptyString
  | S k => String "i" (tally k)
  end.

(** A token source that never repeats: '#', '#i', '#ii', ... *)
Definition sample_generateUUID (k : nat) : string := String "#" (tally k).

(** A joint half a unit up, not rotated, in three.js's default 'XYZ'
    order, scaled by two. *)
Definition bone (name uuid : string) (children : list Node) : Node :=
  Object3D.make name "Bone" true (mkVector3 0 (1 # 2) 0)
    (Angles 0 0 0 "XYZ") (Quat 0 0 0 1) (mkVector3 2 2 2)
    identity true uuid children.

(** Scene -> Hips -> [LeftEye, RightEye] *)
Definition sample_scene : Node :=
  Object3D.make "Scene" "Group" true zero3
    (Angles 0 0 0 "XYZ") (Quat 0 0 0 1) one3 identity true "uuid-scene"
    [bone "Hips" "uuid-hips"
       [bone "LeftEye" "uuid-left" []; bone "RightEye" "uuid-right" []]].

(** [<a-entity id="right-eye"><a-sphere></a-sphere></a-entity>] *)
Definition eye_content : Element :=
  Element.make "a-entity" {[ "id" := "right-eye" ]} []
    [createElement "a-sphere"] newGroup ∅.

(** [<template data-name="RightEye">] with the content above. *)
Definition eye_templates : list Template :=
  [mkTemplate "RightEye" (Some eye_content)].

(** [<template data-name="Hips"></template>] *)
Definition empty_hips_template : list Template := [mkTemplate "Hips" None].

(** A hand with three fingers; templates for the hand (whose content
    has a child element of its own), the thumb and the ring finger. *)
Definition sample_hand : Node :=
  bone "Hand" "uuid-hand"
    [bone "Thumb" "uuid-thumb" []; bone "Index" "uuid-index" [];
     bone "Ring" "uuid-ring" []].

Definition hand_templates : list Template :=
  [mkTemplate "Hand" (Some eye_content);
   mkTemplate "Thumb" (Some (createElement "a-entity"));
   mkTemplate "Ring" (Some (createElement "a-entity"))].




Definition right_eye : Node := bone "RightEye" "uuid-right" [].

(** A skinned mesh for the hands, shown, without children. *)
Definition sample_hands_mesh : Node :=
  Object3D.make "Wolf3D_Hands" "SkinnedMesh" true zero3
    (Angles 0 0 0 "XYZ") (Quat 0 0 0 1) one3 identity true "uuid-hands" [].


(** * The component around [_inflate] *)

(** ** Numbers *)

(** The operations on JavaScript numbers the components use. Nothing is
    assumed of them: what a property needs of the arithmetic is a
    hypothesis of that property. *)
Class JSNumber (num : Type) := {
  num_zero : num;
  num_thousand : num;
  num_add : num -> num -> num;
  num_sub : num -> num -> num;
  num_mul : num -> num -> num;
  num_div : num -> num -> num;
  num_le : num -> num -> bool;
  num_gt : num -> num -> bool
}.

(** Exact rationals, to run the definitions on. *)
#[export] Instance Q_JSNumber : JSNumber Q := {|
  num_zero := 0%Q;
  num_thousand := 1000%Q;
  num_add := Qplus;
  num_sub := Qminus;
  num_mul := Qmult;
  num_div := Qdiv;
  num_le := Qle_bool;
  num_gt := fun a b => negb (Qle_bool a b)
|}.

(** Modelled from the spec: [el.removeAttribute(attr)] (the entity's
    attribute handling is not under src/). *)
Definition removeAttribute (attr : string) (el : Element) : Element :=
  Element.make (Element.tagName el) (delete attr (Element.attributes el))
    (Element.classList el) (Element.children el)
    (Element.object3D el) (Element.object3DMap el).

(** ** readyplayerme-avatar: [init], [tick], [update], [remove] and the
    'model-loaded' listener (readyplayerme-avatar.js, lines 41-47 and
    137-215) *)
Module ReadyplayermeAvatar.

(** The events the component listens to on its element. *)
Inductive Listener :=
| model_loaded
| absolutePositionChanged
| absoluteRotationChanged.

Definition Listener_eqb (a b : Listener) : bool :=
  match a, b with
  | model_loaded, model_loaded => true
  | absolutePositionChanged, absolutePositionChanged => true
  | absoluteRotationChanged, absoluteRotationChanged => true
  | _, _ => false
  end.

(** The action [idleMixer.clipAction(mesh.animations[4])] as the
    listener sets it up; [repetitions] is [None] for [Infinity]. *)
Record IdleAnimation := mkIdleAnimation {
  clip : string;
  clampWhenFinished : bool;
  loop : string;
  repetitions : option nat;
  timeScale : Q;
  time : Q;
  weight : Q
}.

Section Component.

Context {num : Type} {jsnum : JSNumber num}.

(** The calls into three.js the idle timer makes. *)
Inductive Effect :=
| idleAnimation_start
| idleMixer_stopAllAction
| idleMixer_update (seconds : num).

(** The component: its element with the listeners added to it, in
    order, and the fields of [this] the timer uses. ([this.model] and
    [this.animations] are set to [null] by [init] and not used again.) *)
Record t := make {
  el : Element;
  listeners : list Listener;
  idleTimeout : num;
  idle : num;
  isIdle : bool;
  idleAnimation : option IdleAnimation;
  idleMixer : bool
}.

(** [init], with [this.data.idleTimeout] *)
Definition init (data_idleTimeout : num) (el : Element) : t :=
  let idleTimeout := num_mul data_idleTimeout num_thousand in
  make el [] idleTimeout idleTimeout false None false.

Definition with_idle (v : num) (c : t) : t :=
  make (el c) (listeners c) (idleTimeout c) v (isIdle c)
    (idleAnimation c) (idleMixer c).

Definition with_isIdle (b : bool) (c : t) : t :=
  make (el c) (listeners c) (idleTimeout c) (idle c) b
    (idleAnimation c) (idleMixer c).

Definition with_el (e : Element) (c : t) : t :=
  make e (listeners c) (idleTimeout c) (idle c) (isIdle c)
    (idleAnimation c) (idleMixer c).

Definition addEventListener (l : Listener) (c : t) : t :=
  make (el c) (listeners c ++ [l]) (idleTimeout c) (idle c) (isIdle c)
    (idleAnimation c) (idleMixer c).

(** [_startIdle] *)
Definition _startIdle (c : t) : t * list Effect :=
  (with_isIdle true c, [idleAnimation_start]).

(** [_stopIdle] *)
Definition _stopIdle (c : t) : t * list Effect :=
  (with_isIdle false c, [idleMixer_stopAllAction]).

(** [tick: function (time, delta)] *)
Definition tick (delta : num) (c : t) : t * list Effect :=
  if negb (idleMixer c) then (c, [])
  else
    let c := with_idle (num_sub (idle c) delta) c in
    let '(c, effects) :=
      if num_le (idle c) num_zero && negb (isIdle c) then _startIdle c
      else if num_gt (idle c) num_zero && isIdle c then _stopIdle c
      else (c, []) in
    if isIdle c
    then (c, effects ++ [idleMixer_update (num_div delta num_thousand)])
    else (c, effects).

(** The body of the two movement listeners: [self.idle = self.idleTimeout] *)
Definition on_moved (c : t) : t := with_idle (idleTimeout c) c.

(** The element emits 'absolutePositionChanged' or
    'absoluteRotationChanged': every listener added for the event runs.
    (The listener for 'model-loaded' is [on_model_loaded] below.) *)
Definition emit_moved (event : Listener) (c : t) : t :=
  match event with
  | model_loaded => c
  | _ =>
      fold_left (fun c l => if Listener_eqb l event then on_moved c else c)
        (listeners c) c
  end.

(** [remove] *)
Definition remove (c : t) : t :=
  with_el (removeAttribute "gltf-model" (el c)) c.

(** [update], with [this.data.model]: an empty source is falsy. The
    listener added for 'model-loaded' is [on_model_loaded] below. *)
Definition update (data_model : string) (c : t) : t :=
  if String.eqb data_model EmptyString then c
  else
    let c := remove c in
    let c := addEventListener model_loaded c in
    with_el (setAttribute "gltf-model" data_model (el c)) c.

(** [update] called again and again, with the models it finds in
    [this.data] *)
Definition updates (models : list string) (c : t) : t :=
  fold_left (fun c data_model => update data_model c) models c.

Section Listener.

Variable data : Data.
Variable templates : list Template.
Variable generateUUID : nat -> string.

(** What the listener does when the model has a fifth animation. *)
Definition setup_idle (clip : string) (c : t) : t :=
  let c := with_el (setAttribute "absolute-position-listener" EmptyString (el c)) c in
  let c := addEventListener absolutePositionChanged c in
  let c := with_el (setAttribute "absolute-rotation-listener" EmptyString (el c)) c in
  let c := addEventListener absoluteRotationChanged c in
  make (el c) (listeners c) (idleTimeout c) (idle c) (isIdle c)
    (Some (mkIdleAnimation clip true "LoopPingPong" None (1 # 2) 0 1)) true.

(** The listener [update] adds for 'model-loaded'. [animations] is
    [mesh.animations], a clip standing for its name. The element's
    'mesh' slot and the returned entity hold the same node object, so
    the slot shows the node as [_inflate] leaves it. Reading
    [animations] off a missing mesh throws. *)
Definition on_model_loaded (animations : option (list string)) (drawn : nat)
    (c : t) : Completion (t * nat) :=
  match Element.object3DMap (el c) !! "mesh" with
  | None => Throw "TypeError"
  | Some mesh =>
      let c := match animations with
               | Some clips =>
                   match nth_error clips 4 with
                   | Some clip => setup_idle clip c
                   | None => c
                   end
               | None => c
               end in
      match _inflate Avatar data templates generateUUID mesh drawn with
      | Throw e => Throw e
      | Normal (inflated, mesh, drawn) =>
          let c := with_el (setObject3D "mesh" mesh (el c)) c in
          match inflated with
          | Some inflated => Normal (with_el (appendChild inflated (el c)) c, drawn)
          | None => Normal (c, drawn)
          end
      end
  end.

End Listener.

(** What happens to the component, one thing after the other. *)
Inductive Event :=
| Tick (delta : num)
| Moved (event : Listener).

Fixpoint run (events : list Event) (c : t) : t * list Effect :=
  match events with
  | [] => (c, [])
  | Tick delta :: rest =>
      let '(c, effects) := tick delta c in
      let '(c, more) := run rest c in
      (c, effects ++ more)
  | Moved event :: rest => run rest (emit_moved event c)
  end.


End Component.

End ReadyplayermeAvatar.


(** ** mediastream-listener (unnamed/part_002), whose [listen] the later
    copy of readyplayerme-avatar calls to find what to look at *)
Module MediastreamListener.

(** [e.detail] of 'mediastream-listener-loud': the element that is
    loud, by identity, and how loud. *)
Module Detail.
Record t := make { el : nat; loudness : N }.
End Detail.

(** What the scene element emits. *)
Inductive SceneEvent :=
| mediastream_listener_loud (detail : Detail.t)
| mediastream_listener_silent (el : nat).

(** [o[key] = v] on an object whose keys are not array indices: a key
    that is there keeps its place, a new one goes last. *)
Fixpoint set_property (key : string) (v : Detail.t)
    (o : list (string * Detail.t)) : list (string * Detail.t) :=
  match o with
  | [] => [(key, v)]
  | (k, x) :: rest =>
      if String.eqb k key then (k, v) :: rest
      else (k, x) :: set_property key v rest
  end.

(** [o[key]] *)
Definition get_property (key : string) (o : list (string * Detail.t))
    : option Detail.t :=
  option_map snd (List.find (fun kv => String.eqb (fst kv) key) o).

(** [_getLoudness], on what [analyser.getByteFrequencyData] wrote into
    [this.dataArray] *)
Definition _getLoudness (dataArray : list N) : N :=
  fold_left (fun maxByteFrequencyData d =>
               if N.ltb maxByteFrequencyData d then d else maxByteFrequencyData)
    dataArray 0%N.

Record t := make {
  el : nat;
  stream : bool;
  isMakingNoise : bool;
  loudItems : list (string * Detail.t)
}.

(** [init], without the two listeners, which are [on_loud] and
    [on_silent] below *)
Definition init (el : nat) : t := make el false false [].

(** [setMediaStream]: from now on there is a stream to analyse. *)
Definition setMediaStream (c : t) : t :=
  make (el c) true (isMakingNoise c) (loudItems c).

Definition with_isMakingNoise (b : bool) (c : t) : t :=
  make (el c) (stream c) b (loudItems c).

(** [tick], with the frame of byte frequency data it reads *)
Definition tick (dataArray : list N) (c : t) : t * option SceneEvent :=
  if negb (stream c) then (c, None)
  else
    let loudness := _getLoudness dataArray in
    if N.ltb 127 loudness then
      if negb (isMakingNoise c)
      then (with_isMakingNoise true c,
            Some (mediastream_listener_loud (Detail.make (el c) loudness)))
      else (c, None)
    else if isMakingNoise c
      then (with_isMakingNoise false c, Some (mediastream_listener_silent (el c)))
      else (c, None).

Fixpoint ticks (frames : list (list N)) (c : t) : t * list SceneEvent :=
  match frames with
  | [] => (c, [])
  | dataArray :: rest =>
      let '(c, event) := tick dataArray c in
      let '(c, events) := ticks rest c in
      (c, match event with Some e => e :: events | None => events end)
  end.

(** Replaying the events on the flag: a loud event is for a quiet
    element, a silent one for a noisy one. *)
Fixpoint alternate (events : list SceneEvent) (noisy : bool) : option bool :=
  match events with
  | [] => Some noisy
  | mediastream_listener_loud _ :: rest =>
      if noisy then None else alternate rest true
  | mediastream_listener_silent _ :: rest =>
      if noisy then alternate rest false else None
  end.

Definition is_silent (event : SceneEvent) : Prop :=
  match event with
  | mediastream_listener_silent _ => True
  | mediastream_listener_loud _ => False
  end.

Section Table.

(** [String(el)], the property name an element turns into when it is
    used as a key *)
Variable toString : nat -> string.

(** The listener for 'mediastream-listener-loud':
    [self.loudItems[e.detail.el] = e.detail] *)
Definition on_loud (detail : Detail.t) (c : t) : t :=
  make (el c) (stream c) (isMakingNoise c)
    (set_property (toString (Detail.el detail)) detail (loudItems c)).

(** The listener for 'mediastream-listener-silent':
    [if (self.loudItems[e.detail.el]) { self.loudItems[e.detail.el].delete; }],
    which reads a property named [delete] off the entry. *)
Definition on_silent (detail_el : nat) (c : t) : t :=
  match get_property (toString detail_el) (loudItems c) with
  | Some _ => c
  | None => c
  end.

Definition handle (event : SceneEvent) (c : t) : t :=
  match event with
  | mediastream_listener_loud detail => on_loud detail c
  | mediastream_listener_silent detail_el => on_silent detail_el c
  end.

Definition handle_all (events : list SceneEvent) (c : t) : t :=
  fold_left (fun c event => handle event c) events c.

End Table.

Section Listen.

Context {num : Type} {jsnum : JSNumber num}.

(** [loudness / distance ** 2] for an entry, [distance] being that of
    the entry's element from [this.el] when [listen] is called *)
Variable noise : Detail.t -> num.

(** The loop of [listen] over the entries, in the order of the keys *)
Fixpoint listen_loop (this_el : nat) (items : list (string * Detail.t))
    (maxNoise : num) (maxItem : option nat) : option nat :=
  match items with
  | [] => maxItem
  | (key, item) :: rest =>
      if Nat.eqb (Detail.el item) this_el
      then listen_loop this_el rest maxNoise maxItem
      else
        if num_gt (noise item) num_zero && num_gt (noise item) maxNoise
        then listen_loop this_el rest (noise item) (Some (Detail.el item))
        else listen_loop this_el rest maxNoise maxItem
  end.

(** [listen] *)
Definition listen (c : t) : option nat :=
  listen_loop (el c) (loudItems c) num_zero None.

(** An entry [listen] can choose: not the listener's own element, and
    with some noise *)
Definition audible (this_el : nat) (item : Detail.t) : Prop :=
  Detail.el item <> this_el /\ num_gt (noise item) num_zero = true.

(** What [listen] holds after the entries [seen] *)
Definition loudest_of (this_el : nat) (seen : list (string * Detail.t))
    (maxNoise : num) (maxItem : option nat) : Prop :=
  match maxItem with
  | None =>
      maxNoise = num_zero
      /\ forall kv, kv ∈ seen -> ~ audible this_el kv.2
  | Some e =>
      exists kv, kv ∈ seen /\ Detail.el kv.2 = e /\ noise kv.2 = maxNoise
        /\ audible this_el kv.2
        /\ forall kv', kv' ∈ seen -> audible this_el kv'.2 ->
             num_gt (noise kv'.2) maxNoise = false
  end.

End Listen.

End MediastreamListener.

(** ** absolute-position-listener and absolute-rotation-listener
    (mediastream-sound.js from line 137, absolute-rotation-listener.js),
    whose events reset the idle timer *)
Module AbsoluteListener.

Section Component.

Context {num : Type} {jsnum : JSNumber num}.

Record Coordinates := mkCoordinates { x : num; y : num; z : num }.

(** An element on the way up from [this.el]: the position (or the
    rotation angles) of its [object3D] if it has one, and whether it is
    [this.el.sceneEl]. *)
Record Ancestor := mkAncestor {
  object3D : option Coordinates;
  is_sceneEl : bool
}.

(** The [while] loop of [_getAbsolutePosition] and of
    [_getAbsoluteRotation] over [this.el] and its ancestors, up to the
    document. *)
Fixpoint sum_up (chain : list Ancestor) (newValue : Coordinates) : Coordinates :=
  match chain with
  | [] => newValue
  | el :: parents =>
      match object3D el with
      | Some v =>
          if is_sceneEl el then newValue
          else sum_up parents
                 (mkCoordinates (num_add (x newValue) (x v))
                    (num_add (y newValue) (y v))
                    (num_add (z newValue) (z v)))
      | None => newValue
      end
  end.

(** [_getAbsolutePosition] *)
Definition _getAbsolutePosition (chain : list Ancestor) : Coordinates :=
  sum_up chain (mkCoordinates num_zero num_zero num_zero).

(** [THREE.MathUtils.radToDeg] *)
Variable radToDeg : num -> num.

(** [_getAbsoluteRotation] *)
Definition _getAbsoluteRotation (chain : list Ancestor) : Coordinates :=
  let newValue := sum_up chain (mkCoordinates num_zero num_zero num_zero) in
  mkCoordinates (radToDeg (x newValue)) (radToDeg (y newValue))
    (radToDeg (z newValue)).

(** [AFRAME.utils.coordinates.stringify], which is not under src/ *)
Variable stringify : Coordinates -> string.

(** [tick] of either listener, on the value it has just computed:
    the new [lastPosition] (or [lastRotation]), and the value emitted
    if any. The field is undefined until the first tick. *)
Definition tick (newValue : Coordinates) (last : option string)
    : option string * option Coordinates :=
  let stringCoords := stringify newValue in
  match last with
  | Some s =>
      if String.eqb s stringCoords then (last, None)
      else (Some stringCoords, Some newValue)
  | None => (Some stringCoords, Some newValue)
  end.

Fixpoint ticks (values : list Coordinates) (last : option string)
    : option string * list Coordinates :=
  match values with
  | [] => (last, [])
  | newValue :: rest =>
      let '(last, emitted) := tick newValue last in
      let '(last, more) := ticks rest last in
      (last, match emitted with Some v => v :: more | None => more end)
  end.

(** No value of the list is the one before it again, [prev] being the
    one before the first. *)
Fixpoint no_repeat (prev : option string) (l : list string) : Prop :=
  match l with
  | [] => True
  | s :: rest => prev <> Some s /\ no_repeat (Some s) rest
  end.

(** Adding up, component by component *)
Definition add (newValue v : Coordinates) : Coordinates :=
  mkCoordinates (num_add (x newValue) (x v)) (num_add (y newValue) (y v))
    (num_add (z newValue) (z v)).

(** An element the loop goes past: it has an [object3D] and is not the
    scene. *)
Definition below_scene (el : Ancestor) : Prop :=
  is_Some (object3D el) /\ is_sceneEl el = false.

End Component.

End AbsoluteListener.

(** ** Sample components *)

(** A component with a timeout of ten seconds on a fresh entity whose
    model is the sample scene. *)
Definition sample_component : @ReadyplayermeAvatar.t Q :=
  ReadyplayermeAvatar.init 10%Q
    (setObject3D "mesh" sample_scene (createElement "a-entity")).

(** The same with the idle animation set up. *)
Definition idle_component : @ReadyplayermeAvatar.t Q :=
  ReadyplayermeAvatar.setup_idle "idle_eyes_2" sample_component.

(** The same once the countdown has run out. *)
Definition resting_component : @ReadyplayermeAvatar.t Q :=
  ReadyplayermeAvatar.with_isIdle true
    (ReadyplayermeAvatar.with_idle 0%Q idle_component).

(** Every element turns into the same property name. *)
Definition sample_toString (el : nat) : string := "[object HTMLElement]".

(** The listener of element 1, with entries for the elements 2 and 3
    and for itself. *)
Definition sample_listener : MediastreamListener.t :=
  MediastreamListener.make 1 true false
    [("a", MediastreamListener.Detail.make 2 200);
     ("b", MediastreamListener.Detail.make 3 150);
     ("c", MediastreamListener.Detail.make 1 255)].

(** Element 2 is two units away, the others one. *)
Definition sample_noise (item : MediastreamListener.Detail.t) : Q :=
  (inject_Z (Z.of_N (MediastreamListener.Detail.loudness item))
   / (if Nat.eqb (MediastreamListener.Detail.el item) 2 then 4 else 1))%Q.

(** A camera in a rig in the scene *)
Definition sample_chain : list (@AbsoluteListener.Ancestor Q) :=
  [AbsoluteListener.mkAncestor (Some (AbsoluteListener.mkCoordinates 1%Q 2%Q 3%Q)) false;
   AbsoluteListener.mkAncestor (Some (AbsoluteListener.mkCoordinates 10%Q 0%Q 0%Q)) false].

Definition sample_sceneEl : @AbsoluteListener.Ancestor Q :=
  AbsoluteListener.mkAncestor
    (Some (AbsoluteListener.mkCoordinates 100%Q 100%Q 100%Q)) true.

(** ** Notions the further properties are stated with *)


(** * Properties *)

(** Case analysis on every condition of the goal. *)
Ltac case_conditions :=
  repeat match goal with
         | |- context [if ?b then _ else _] => destruct b
         end.

(** ** The string helpers on the names the code meets *)

Example remove_invalid_node_name :
  remove_invalid "Wolf3D_Hands.001 (left)" = "Wolf3D_Hands001left".
Proof. reflexivity. Qed.

Example remove_invalid_uuid :
  remove_invalid "0A1B2C3D-4e5f-4a6b-8C7D-9e0f1a2b3c4d"
  = "0A1B2C3D-4e5f-4a6b-8C7D-9e0f1a2b3c4d".
Proof. reflexivity. Qed.

Example toLowerCase_type : toLowerCase "SkinnedMesh" = "skinnedmesh".
Proof. reflexivity. Qed.

(** ** Induction over node trees *)

Lemma Node_tree_ind (P : Node -> Prop) :
  (forall node, Forall P (Object3D.children node) -> P node) ->
  forall node, P node.
Proof.
  intros step.
  fix IH 1.
  intros [n t v p r q sc m a u cs].
  apply step. simpl.
  induction cs as [|c cs IHcs]; constructor.
  - apply IH.
  - exact IHcs.
Qed.

(** ** The loop *)

Section LoopFacts.

Variable inflate : Node -> nat -> Outcome.

Lemma inflate_children_Visits children : forall ces live drawn ces' live' drawn',
  inflate_children inflate children ces live drawn = Normal (ces', live', drawn') ->
  exists outs,
    Visits inflate children drawn outs drawn'
    /\ ces' = ces ++ entities outs
    /\ live' = live ++ kept outs.
Proof.
  induction children as [|c cs IH]; intros ces live drawn ces' live' drawn' H; simpl in H.
  - inversion H; subst. exists []. split; [constructor|].
    unfold entities, kept; simpl. by rewrite !app_nil_r.
  - destruct (inflate c drawn) as [[[r c'] d1]|err] eqn:Hc; [|discriminate].
    destruct r as [ce|].
    + apply IH in H as (outs & Hv & -> & ->).
      exists ((Some ce, c') :: outs). split; [econstructor; eauto|].
      unfold entities, kept; simpl. by rewrite <- app_assoc.
    + apply IH in H as (outs & Hv & -> & ->).
      exists ((None, c') :: outs). split; [econstructor; eauto|].
      unfold entities, kept; simpl. by rewrite <- app_assoc.
Qed.

Lemma Visits_inflate_children children : forall drawn outs drawn' ces live,
  Visits inflate children drawn outs drawn' ->
  inflate_children inflate children ces live drawn
  = Normal (ces ++ entities outs, live ++ kept outs, drawn').
Proof.
  induction children as [|c cs IH]; intros drawn outs drawn' ces live Hv;
    inversion Hv; subst; simpl.
  - unfold entities, kept; simpl. by rewrite !app_nil_r.
  - rewrite H1. destruct r as [ce|].
    + erewrite IH by eauto. unfold entities, kept; simpl. by rewrite <- !app_assoc.
    + erewrite IH by eauto. unfold entities, kept; simpl. by rewrite <- !app_assoc.
Qed.

Lemma Visits_length children drawn outs drawn' :
  Visits inflate children drawn outs drawn' ->
  List.length outs = List.length children.
Proof. induction 1; simpl; congruence. Qed.

Lemma Visits_deterministic children drawn outs1 d1 outs2 d2 :
  Visits inflate children drawn outs1 d1 ->
  Visits inflate children drawn outs2 d2 ->
  outs1 = outs2 /\ d1 = d2.
Proof.
  intros H1. revert outs2 d2.
  induction H1 as [|c cs d r c' da outs db Hc Hrest IH];
    intros outs2 d2 H2; inversion H2 as [|? ? ? r2 c2 da2 outs' ? Hc2 Hrest2]; subst; [done|].
  rewrite Hc in Hc2. inversion Hc2; subst.
  destruct (IH _ _ Hrest2) as [-> ->]. done.
Qed.

End LoopFacts.

(** ** One call, taken apart *)

Section InflateFacts.

Variable revision : Revision.
Variable data : Data.
Variable templates : list Template.
Variable generateUUID : nat -> string.

Local Abbreviation inflate := (_inflate revision data templates generateUUID).
Local Abbreviation wrap' := (wrap revision generateUUID).
Local Abbreviation after_loop := (after_loop data).

Lemma _inflate_unfold node drawn :
  inflate node drawn =
  match inflate_children inflate (Object3D.children node) [] [] drawn with
  | Throw e => Throw e
  | Normal (childrenEntities, live, drawn) =>
      let node := set_children live (apply_visibility data node) in
      let nodeTemplate := querySelector templates (Object3D.name node) in
      if negb (String.eqb (Object3D.name node) "Scene")
         && negb (bool_decide (is_Some nodeTemplate))
         && Nat.eqb (List.length childrenEntities) 0
      then Normal (None, node, drawn)
      else
        match resolve_el revision nodeTemplate with
        | Throw e => Throw e
        | Normal el =>
            let '(el, node, drawn) := wrap' node el childrenEntities drawn in
            Normal (Some el, node, drawn)
        end
  end.
Proof. destruct node; reflexivity. Qed.

Lemma apply_visibility_name node :
  Object3D.name (apply_visibility data node) = Object3D.name node.
Proof.
  unfold apply_visibility. case_conditions; reflexivity.
Qed.

Lemma after_loop_name node outs :
  Object3D.name (after_loop node outs) = Object3D.name node.
Proof. unfold after_loop. simpl. apply apply_visibility_name. Qed.

(** A call that returns visited every child of the copy in order and
    then either pruned the node or wrapped it. *)
Lemma inflate_inv node drawn r node' drawn' :
  inflate node drawn = Normal (r, node', drawn') ->
  exists outs drawn1,
    Visits inflate (Object3D.children node) drawn outs drawn1
    /\ ((r = None
         /\ Object3D.name node <> "Scene"
         /\ querySelector templates (Object3D.name node) = None
         /\ entities outs = []
         /\ node' = after_loop node outs
         /\ drawn' = drawn1)
        \/ (exists el,
              (Object3D.name node = "Scene"
               \/ is_Some (querySelector templates (Object3D.name node))
               \/ entities outs <> [])
              /\ resolve_el revision (querySelector templates (Object3D.name node))
                 = Normal el
              /\ (r, node', drawn')
                 = (let '(e, n, d) := wrap' (after_loop node outs) el (entities outs) drawn1
                    in (Some e, n, d)))).
Proof.
  rewrite _inflate_unfold. intros H.
  destruct (inflate_children inflate (Object3D.children node) [] [] drawn)
    as [[[ces live] d1]|err] eqn:Hloop; [|discriminate].
  apply inflate_children_Visits in Hloop as (outs & Hv & -> & ->).
  simpl app in H. cbv zeta in H.
  change (set_children (kept outs) (apply_visibility data node))
    with (after_loop node outs) in H.
  rewrite after_loop_name in H.
  exists outs, d1. split; [exact Hv|].
  destruct (String.eqb (Object3D.name node) "Scene") eqn:Hname.
  - apply String.eqb_eq in Hname. right. cbn [negb andb] in H.
    destruct (resolve_el revision _) as [el|err] eqn:Hel; [|discriminate].
    exists el. split; [by left|]. split; [reflexivity|].
    destruct (wrap' _ el _ d1) as [[e n] d]. by inversion H.
  - apply String.eqb_neq in Hname. cbn [negb andb] in H.
    destruct (querySelector templates (Object3D.name node)) as [t|] eqn:Hq.
    + right. rewrite bool_decide_eq_true_2 in H by eauto. cbn [negb andb] in H.
      destruct (resolve_el revision _) as [el|err] eqn:Hel; [|discriminate].
      exists el. split; [right; left; eauto|]. split; [reflexivity|].
      destruct (wrap' _ el _ d1) as [[e n] d]. by inversion H.
    + rewrite bool_decide_eq_false_2 in H by (intros [? ?]; discriminate).
      cbn [negb andb] in H.
      destruct (entities outs) as [|ce ces] eqn:Hces;
        cbn [List.length Nat.eqb] in H.
      * left. inversion H; subst. done.
      * right.
        destruct (resolve_el revision None) as [el|err] eqn:Hel; [|discriminate].
        exists el. split; [right; right; done|]. split; [reflexivity|].
        destruct (wrap' _ el _ d1) as [[e n] d]. by inversion H.
Qed.

Lemma inflate_eval node drawn outs drawn1 :
  Visits inflate (Object3D.children node) drawn outs drawn1 ->
  inflate node drawn =
  if negb (String.eqb (Object3D.name node) "Scene")
     && negb (bool_decide (is_Some (querySelector templates (Object3D.name node))))
     && Nat.eqb (List.length (entities outs)) 0
  then Normal (None, after_loop node outs, drawn1)
  else
    match resolve_el revision (querySelector templates (Object3D.name node)) with
    | Throw e => Throw e
    | Normal el =>
        let '(el, node, drawn) := wrap' (after_loop node outs) el (entities outs) drawn1 in
        Normal (Some el, node, drawn)
    end.
Proof.
  intros Hv. rewrite _inflate_unfold.
  rewrite (Visits_inflate_children _ _ _ _ _ [] [] Hv).
  cbn [app]. cbv zeta.
  change (set_children (kept outs) (apply_visibility data node))
    with (after_loop node outs).
  by rewrite after_loop_name.
Qed.

Lemma querySelector_elem name t :
  querySelector templates name = Some t ->
  t ∈ templates /\ data_name t = name.
Proof.
  unfold querySelector. intros H. apply find_some in H as [Hin Heq].
  split; [by apply list_elem_of_In|]. by apply String.eqb_eq.
Qed.

Lemma resolve_el_total name :
  content_where_needed revision templates ->
  exists el, resolve_el revision (querySelector templates name) = Normal el.
Proof.
  intros Hsafe. unfold resolve_el.
  destruct (querySelector templates name) as [t|] eqn:Hq; [|eauto].
  destruct (firstElementChild t) as [c|] eqn:Hc; [eauto|].
  destruct revision; [eauto|].
  apply querySelector_elem in Hq as [Hin _].
  specialize (Hsafe eq_refl). unfold templates_have_content in Hsafe.
  rewrite Forall_forall in Hsafe. destruct (Hsafe _ Hin) as [c Hc'].
  congruence.
Qed.

(** With content where it is needed, every call returns. *)
Lemma inflate_total :
  content_where_needed revision templates ->
  forall node drawn, exists r node' drawn',
    inflate node drawn = Normal (r, node', drawn').
Proof.
  intros Hsafe node. induction node as [node IH] using Node_tree_ind.
  intros drawn.
  assert (Hloop : forall d, exists outs d1,
             Visits inflate (Object3D.children node) d outs d1).
  { induction IH as [|c cs Hc _ IHcs]; intros d.
    - exists [], d. constructor.
    - destruct (Hc d) as (r & c' & d1 & Hcall).
      destruct (IHcs d1) as (outs & d2 & Hv).
      exists ((r, c') :: outs), d2. econstructor; eauto. }
  destruct (Hloop drawn) as (outs & d1 & Hv).
  rewrite (inflate_eval _ _ _ _ Hv).
  destruct (_ && _); [eauto|].
  destruct (resolve_el_total (Object3D.name node) Hsafe) as [el ->].
  destruct (wrap' _ el _ d1) as [[e n] d]. eauto.
Qed.

(** Whether a call hands back an entity is the inclusion rule, whatever
    the state it runs in. *)
Lemma inflate_qualifies node : forall drawn r node' drawn',
  inflate node drawn = Normal (r, node', drawn') ->
  is_Some r <-> qualifies templates node = true.
Proof.
  induction node as [node IH] using Node_tree_ind.
  intros drawn r node' drawn' H.
  apply inflate_inv in H as (outs & d1 & Hv & Hcase).
  assert (Hkids : entities outs <> []
                  <-> existsb (qualifies templates) (Object3D.children node) = true).
  { clear Hcase. induction Hv as [|c cs d rc c' da outs db Hc Hrest IHv].
    - simpl. split; [done|discriminate].
    - apply Forall_cons in IH as [IHc IHcs]. specialize (IHv IHcs).
      specialize (IHc _ _ _ _ Hc).
      unfold entities in *. simpl. rewrite orb_true_iff.
      destruct rc as [ce|]; simpl.
      + split; [|done]. intros _. left. apply IHc. eauto.
      + rewrite IHv. split; [tauto|]. intros [Hq|Hq]; [|done].
        apply IHc in Hq. by destruct Hq. }
  assert (Hq : qualifies templates node =
               String.eqb (Object3D.name node) "Scene"
               || bool_decide (is_Some (querySelector templates (Object3D.name node)))
               || existsb (qualifies templates) (Object3D.children node)).
  { destruct node; reflexivity. }
  rewrite Hq, !orb_true_iff, String.eqb_eq, bool_decide_eq_true, <- Hkids.
  destruct Hcase as [(-> & Hn & Ht & He & _)|(el & Hwhy & _ & Heq)].
  - split; [intros [? ?]; discriminate|].
    rewrite Ht, He. intros [[?|[? ?]]|?]; done.
  - destruct (wrap' _ el _ d1) as [[e n] d]. inversion Heq; subst.
    split; [|eauto]. intros _. tauto.
Qed.

End InflateFacts.

(** ** What wrapping writes *)

Section WrapFacts.

Variable revision : Revision.
Variable generateUUID : nat -> string.

Local Abbreviation wrap' := (wrap revision generateUUID).

Lemma fold_left_appendChild ces : forall el,
  fold_left (fun el childEntity => appendChild childEntity el) ces el
  = Element.make (Element.tagName el) (Element.attributes el)
      (Element.classList el) (Element.children el ++ ces)
      (Element.object3D el) (Element.object3DMap el).
Proof.
  induction ces as [|c ces IH]; intros [tg attrs cl ch g m]; simpl.
  - by rewrite app_nil_r.
  - rewrite IH. simpl. by rewrite <- app_assoc.
Qed.

Lemma wrap_children node el ces drawn :
  Element.children (wrap' node el ces drawn).1.1 = Element.children el ++ ces.
Proof.
  unfold wrap. rewrite fold_left_appendChild.
  destruct revision, (String.eqb (Object3D.name node) "Scene"); reflexivity.
Qed.

Lemma wrap_drawn node el ces drawn :
  (wrap' node el ces drawn).2 = S drawn.
Proof. reflexivity. Qed.


Lemma wrap_object3D_name node el ces drawn :
  Group.name (Element.object3D (wrap' node el ces drawn).1.1) = Object3D.name node.
Proof.
  unfold wrap.
  destruct (negb (String.eqb (order (Object3D.rotation node)) "YXZ")); reflexivity.
Qed.

Lemma wrap_object3D_uuid node el ces drawn :
  Group.uuid (Element.object3D (wrap' node el ces drawn).1.1) = Object3D.uuid node.
Proof.
  unfold wrap.
  destruct (negb (String.eqb (order (Object3D.rotation node)) "YXZ")); reflexivity.
Qed.

Lemma wrap_node_uuid node el ces drawn :
  Object3D.uuid (wrap' node el ces drawn).1.2 = generateUUID drawn.
Proof. reflexivity. Qed.

Lemma wrap_node_children node el ces drawn :
  Object3D.children (wrap' node el ces drawn).1.2 = Object3D.children node.
Proof.
  unfold wrap.
  destruct (negb (String.eqb (order (Object3D.rotation node)) "YXZ")); reflexivity.
Qed.

End WrapFacts.

(** ** Trees *)



Lemma qualifies_unfold templates node :
  qualifies templates node =
  String.eqb (Object3D.name node) "Scene"
  || bool_decide (is_Some (querySelector templates (Object3D.name node)))
  || existsb (qualifies templates) (Object3D.children node).
Proof. destruct node; reflexivity. Qed.


Section VisitsFacts.

Variable inflate : Node -> nat -> Outcome.




End VisitsFacts.

(** ** Calls that keep the node, calls that prune it *)

Section Cases.

Variable revision : Revision.
Variable data : Data.
Variable templates : list Template.
Variable generateUUID : nat -> string.

Local Abbreviation inflate := (_inflate revision data templates generateUUID).

Lemma inflate_inv_Some node drawn e node' drawn' :
  inflate node drawn = Normal (Some e, node', drawn') ->
  exists outs drawn1 el,
    Visits inflate (Object3D.children node) drawn outs drawn1
    /\ (Object3D.name node = "Scene"
        \/ is_Some (querySelector templates (Object3D.name node))
        \/ entities outs <> [])
    /\ resolve_el revision (querySelector templates (Object3D.name node)) = Normal el
    /\ (e, node', drawn')
       = wrap revision generateUUID (after_loop data node outs) el (entities outs) drawn1.
Proof.
  intros H. apply inflate_inv in H as (outs & d1 & Hv & [(Hr & _)|(el & Hwhy & Hel & Heq)]);
    [discriminate|].
  exists outs, d1, el. repeat split; try done.
  destruct (wrap _ _ _ el _ d1) as [[e0 n0] d0]. by inversion Heq.
Qed.

Lemma inflate_inv_None node drawn node' drawn' :
  inflate node drawn = Normal (None, node', drawn') ->
  exists outs,
    Visits inflate (Object3D.children node) drawn outs drawn'
    /\ Object3D.name node <> "Scene"
    /\ querySelector templates (Object3D.name node) = None
    /\ entities outs = []
    /\ node' = after_loop data node outs.
Proof.
  intros H. apply inflate_inv in H as (outs & d1 & Hv & [(_ & Hn & Hq & He & -> & ->)|(el & _ & _ & Heq)]).
  - exists outs. done.
  - destruct (wrap _ _ _ el _ d1) as [[e0 n0] d0]. discriminate.
Qed.



End Cases.

Lemma avatar_needs_no_content templates : content_where_needed Avatar templates.
Proof. intros H. discriminate. Qed.

Section Children.

Variable revision : Revision.
Variable data : Data.
Variable templates : list Template.
Variable generateUUID : nat -> string.

Local Abbreviation inflate := (_inflate revision data templates generateUUID).

Lemma cloneNode_children content :
  Element.children (cloneNode content)
  = List.map cloneNode (Element.children content).
Proof. destruct content; reflexivity. Qed.

Lemma resolve_el_children name el :
  resolve_el revision (querySelector templates name) = Normal el ->
  Element.children el = shell_children templates name.
Proof.
  unfold resolve_el, shell_children.
  destruct (querySelector templates name) as [t|].
  - destruct (firstElementChild t) as [c|].
    + intros H. inversion H. apply cloneNode_children.
    + destruct revision; intros H; inversion H. reflexivity.
  - intros H. inversion H. reflexivity.
Qed.

(** The children of a returned entity, and the children left on the
    node. *)
Lemma entity_children node drawn e node' drawn' :
  inflate node drawn = Normal (Some e, node', drawn') ->
  exists outs drawn1,
    Visits inflate (Object3D.children node) drawn outs drawn1
    /\ Element.children e
       = shell_children templates (Object3D.name node) ++ entities outs
    /\ Object3D.children node' = kept outs.
Proof.
  intros H. apply inflate_inv_Some in H as (outs & d1 & el & Hv & _ & Hel & Heq).
  exists outs, d1. split; [done|].
  pose proof (wrap_children revision generateUUID
                (after_loop data node outs) el (entities outs) d1) as Hch.
  pose proof (wrap_node_children revision generateUUID
                (after_loop data node outs) el (entities outs) d1) as Hnc.
  rewrite <- Heq in Hch, Hnc. simpl in Hch, Hnc.
  rewrite Hch, Hnc. by rewrite (resolve_el_children _ _ Hel).
Qed.

End Children.

(** For children [A, B, C] of which the calls on A and C return
    entities and the call on B does not. *)
Lemma three_children_A_B_C data templates generateUUID node drawn e node' drawn'
    A B C eA A' dA B' dB eC C' dC :
  Object3D.children node = [A; B; C] ->
  _inflate Avatar data templates generateUUID A drawn = Normal (Some eA, A', dA) ->
  _inflate Avatar data templates generateUUID B dA = Normal (None, B', dB) ->
  _inflate Avatar data templates generateUUID C dB = Normal (Some eC, C', dC) ->
  _inflate Avatar data templates generateUUID node drawn
  = Normal (Some e, node', drawn') ->
  Element.children e = shell_children templates (Object3D.name node) ++ [eA; eC]
  /\ Object3D.children node' = [B'].
Proof.
  intros Hcs HA HB HC H.
  apply entity_children in H as (outs & d1 & Hv & Hch & Hnc).
  rewrite Hcs in Hv.
  assert (Hv' : Visits (_inflate Avatar data templates generateUUID) [A; B; C] drawn
                  [(Some eA, A'); (None, B'); (Some eC, C')] dC)
    by (repeat econstructor; eauto).
  destruct (Visits_deterministic _ _ _ _ _ _ _ Hv Hv') as [-> _].
  by rewrite Hch, Hnc.
Qed.

(** ** Templates without content *)

(** The current revision falls back to a default entity. *)
Lemma empty_template_falls_back data templates generateUUID node drawn t :
  querySelector templates (Object3D.name node) = Some t ->
  firstElementChild t = None ->
  resolve_el Avatar (querySelector templates (Object3D.name node))
  = Normal (createElement "a-entity")
  /\ resolve_el Avatar (querySelector templates (Object3D.name node))
     = resolve_el Avatar None
  /\ exists e node' drawn',
       _inflate Avatar data templates generateUUID node drawn
       = Normal (Some e, node', drawn')
       /\ Element.tagName e = "a-entity".
Proof.
  intros Hq Hc.
  assert (Hel : resolve_el Avatar (querySelector templates (Object3D.name node))
                = Normal (createElement "a-entity")).
  { unfold resolve_el. by rewrite Hq, Hc. }
  split; [done|]. split; [done|].
  destruct (inflate_total Avatar data templates generateUUID
              (avatar_needs_no_content templates) node drawn)
    as (r & node' & drawn' & Hcall).
  assert (Hqual : qualifies templates node = true).
  { rewrite qualifies_unfold, Hq.
    rewrite (bool_decide_eq_true_2 _ (ltac:(eauto) : is_Some (Some t))).
    by rewrite orb_true_r. }
  destruct (proj2 (inflate_qualifies _ _ _ _ _ _ _ _ _ Hcall) Hqual) as [e He].
  subst r. exists e, node', drawn'. split; [done|].
  apply inflate_inv_Some in Hcall as (outs & d1 & el & _ & _ & Hel' & Heq).
  rewrite Hel in Hel'. inversion Hel'; subst el.
  assert (Htag : Element.tagName
                   (wrap Avatar generateUUID (after_loop data node outs)
                      (createElement "a-entity") (entities outs) d1).1.1
                 = "a-entity").
  { unfold wrap. rewrite fold_left_appendChild.
    destruct (String.eqb _ "Scene"); reflexivity. }
  by rewrite <- Heq in Htag.
Qed.


(** ** Pruned nodes *)

Section Pruned.

Variable revision : Revision.
Variable data : Data.
Variable templates : list Template.
Variable generateUUID : nat -> string.

Local Abbreviation inflate := (_inflate revision data templates generateUUID).

Lemma visit_unfold node :
  visit data node
  = set_children (List.map (visit data) (Object3D.children node))
      (apply_visibility data node).
Proof. destruct node; reflexivity. Qed.

(** A call that returns nothing has applied the visibility switch
    throughout the subtree, drawn no token, and done nothing else. *)
Lemma pruned_is_visit node : forall drawn node' drawn',
  inflate node drawn = Normal (None, node', drawn') ->
  node' = visit data node /\ drawn' = drawn.
Proof.
  induction node as [node IH] using Node_tree_ind.
  intros drawn node' drawn' H.
  apply inflate_inv_None in H as (outs & Hv & _ & _ & He & ->).
  assert (Hk : kept outs = List.map (visit data) (Object3D.children node)
               /\ drawn' = drawn).
  { clear -Hv He IH.
    induction Hv as [|c cs d r c' da outs db Hc Hrest IHv].
    - done.
    - apply Forall_cons in IH as [IHc IHcs].
      unfold entities in He. simpl in He.
      destruct r as [ce|]; [discriminate|].
      destruct (IHc _ _ _ Hc) as [-> ->].
      destruct (IHv IHcs He) as [Hk ->].
      change (kept ((None, visit data c) :: outs))
        with (visit data c :: kept outs).
      by rewrite Hk. }
  destruct Hk as [Hk ->]. split; [|done].
  unfold after_loop. by rewrite Hk, visit_unfold.
Qed.

End Pruned.

Lemma visit_fields data node :
  Object3D.name (visit data node) = Object3D.name node
  /\ Object3D.type (visit data node) = Object3D.type node
  /\ Object3D.position (visit data node) = Object3D.position node
  /\ Object3D.rotation (visit data node) = Object3D.rotation node
  /\ Object3D.quaternion (visit data node) = Object3D.quaternion node
  /\ Object3D.scale (visit data node) = Object3D.scale node
  /\ Object3D.matrix (visit data node) = Object3D.matrix node
  /\ Object3D.matrixAutoUpdate (visit data node) = Object3D.matrixAutoUpdate node
  /\ Object3D.uuid (visit data node) = Object3D.uuid node
  /\ Object3D.children (visit data node)
     = List.map (visit data) (Object3D.children node)
  /\ Object3D.visible (visit data node)
     = if String.eqb (Object3D.type node) "SkinnedMesh" then
         if String.eqb (Object3D.name node) "Wolf3D_Hands" then hands data
         else if String.eqb (Object3D.name node) "Wolf3D_Shirt" then shirt data
         else head data
       else Object3D.visible node.
Proof.
  rewrite visit_unfold. unfold apply_visibility.
  destruct (String.eqb (Object3D.type node) "SkinnedMesh");
    destruct (String.eqb (Object3D.name node) "Wolf3D_Hands");
    destruct (String.eqb (Object3D.name node) "Wolf3D_Shirt");
    repeat split; reflexivity.
Qed.

(** ** The transform *)


Lemma after_loop_transform data node outs :
  Object3D.position (after_loop data node outs) = Object3D.position node
  /\ Object3D.rotation (after_loop data node outs) = Object3D.rotation node
  /\ Object3D.quaternion (after_loop data node outs) = Object3D.quaternion node
  /\ Object3D.scale (after_loop data node outs) = Object3D.scale node
  /\ Object3D.uuid (after_loop data node outs) = Object3D.uuid node.
Proof.
  unfold after_loop, apply_visibility.
  case_conditions; repeat split; reflexivity.
Qed.




(** ** Identity tokens *)

Lemma tree_uuids_unfold node :
  tree_uuids node
  = Object3D.uuid node :: flat_map tree_uuids (Object3D.children node).
Proof. destruct node; reflexivity. Qed.

Lemma run_unfold inflate node drawn :
  run inflate node drawn
  = run_children inflate (run inflate) (Object3D.children node) drawn
    ++ [(node, inflate node drawn)].
Proof. destruct node; reflexivity. Qed.

Lemma seq_snoc_range (a b : nat) :
  a <= b -> seq a (S b - a) = seq a (b - a) ++ [b].
Proof.
  intros Hab. replace (S b - a) with ((b - a) + 1) by lia.
  rewrite seq_app. simpl. do 3 f_equal. lia.
Qed.

Lemma seq_join_range (a b c : nat) :
  a <= b -> b <= c -> seq a (c - a) = seq a (b - a) ++ seq b (c - b).
Proof.
  intros Hab Hbc. replace (c - a) with ((b - a) + (c - b)) by lia.
  rewrite seq_app. do 2 f_equal. lia.
Qed.

Section Tokens.

Variable revision : Revision.
Variable data : Data.
Variable templates : list Template.
Variable generateUUID : nat -> string.

Local Abbreviation inflate := (_inflate revision data templates generateUUID).

(** The tokens in use after a call are the tokens the subtree had
    before it and the tokens drawn during it, each of them once. *)
Lemma run_tokens node : forall drawn r node' drawn',
  inflate node drawn = Normal (r, node', drawn') ->
  drawn <= drawn'
  /\ flat_map held (run inflate node drawn)
     ≡ₚ tree_uuids node ++ List.map generateUUID (seq drawn (drawn' - drawn)).
Proof.
  induction node as [node IH] using Node_tree_ind.
  intros drawn r node' drawn' Hcall.
  pose proof Hcall as Hinv.
  apply inflate_inv in Hinv as (outs & d1 & Hv & Hcase).
  assert (Hkids :
    drawn <= d1
    /\ flat_map held (run_children inflate (run inflate) (Object3D.children node) drawn)
       ≡ₚ flat_map tree_uuids (Object3D.children node)
          ++ List.map generateUUID (seq drawn (d1 - drawn))).
  { clear Hcall Hcase.
    induction Hv as [|c cs d rc c' da outs db Hc Hrest IHv].
    - split; [done|]. simpl. by rewrite Nat.sub_diag.
    - apply Forall_cons in IH as [IHc IHcs].
      destruct (IHc _ _ _ _ Hc) as [Hle Hpc].
      destruct (IHv IHcs) as [Hle' Hpr].
      split; [lia|].
      simpl. rewrite Hc. simpl. rewrite flat_map_app, Hpc, Hpr.
      rewrite (seq_join_range d da db) by done.
      rewrite List.map_app, <- !app_assoc.
      apply Permutation_app_head.
      rewrite !app_assoc. apply Permutation_app_tail.
      apply Permutation_app_comm. }
  destruct Hkids as [Hle Hperm].
  rewrite run_unfold, flat_map_app, Hperm, tree_uuids_unfold.
  simpl flat_map. rewrite Hcall, app_nil_r.
  destruct Hcase as [(-> & _ & _ & _ & -> & ->)|(el & _ & _ & Heq)].
  - split; [done|]. unfold held. cbn [snd].
    destruct (after_loop_transform data node outs) as (_ & _ & _ & _ & ->).
    rewrite <- Permutation_middle. simpl. constructor.
    by rewrite app_nil_r.
  - pose proof (wrap_object3D_uuid revision generateUUID
                  (after_loop data node outs) el (entities outs) d1) as He.
    pose proof (wrap_node_uuid revision generateUUID
                  (after_loop data node outs) el (entities outs) d1) as Hn.
    pose proof (wrap_drawn revision generateUUID
                  (after_loop data node outs) el (entities outs) d1) as Hd.
    destruct (wrap revision generateUUID _ el _ d1) as [[e n] d].
    cbn [fst snd] in He, Hn, Hd. inversion Heq; subst.
    split; [lia|]. unfold held. cbn [snd]. rewrite He, Hn.
    destruct (after_loop_transform data node outs) as (_ & _ & _ & _ & ->).
    rewrite (seq_snoc_range drawn d1) by done.
    rewrite List.map_app. simpl.
    rewrite <- Permutation_middle. constructor.
    by rewrite <- app_assoc.
Qed.

Lemma Visits_le children drawn outs drawn1 :
  Visits inflate children drawn outs drawn1 -> drawn <= drawn1.
Proof.
  induction 1 as [|c cs d rc c' da outs db Hc Hrest IHv]; [done|].
  destruct (run_tokens c _ _ _ _ Hc) as [Hle _]. lia.
Qed.

(** An entity takes over the node's token, and the node gets the next
    token of the source. *)
Lemma inflate_uuids node drawn e node' drawn' :
  inflate node drawn = Normal (Some e, node', drawn') ->
  Group.uuid (Element.object3D e) = Object3D.uuid node
  /\ exists drawn1, drawn <= drawn1 /\ drawn' = S drawn1
                    /\ Object3D.uuid node' = generateUUID drawn1.
Proof.
  intros Hcall. pose proof Hcall as Hinv.
  apply inflate_inv_Some in Hinv as (outs & d1 & el & Hv & _ & _ & Heq).
  pose proof (wrap_object3D_uuid revision generateUUID
                (after_loop data node outs) el (entities outs) d1) as He.
  pose proof (wrap_node_uuid revision generateUUID
                (after_loop data node outs) el (entities outs) d1) as Hn.
  pose proof (wrap_drawn revision generateUUID
                (after_loop data node outs) el (entities outs) d1) as Hd.
  rewrite <- Heq in He, Hn, Hd. cbn [fst snd] in He, Hn, Hd.
  destruct (after_loop_transform data node outs) as (_ & _ & _ & _ & Hu).
  rewrite Hu in He. split; [done|].
  exists d1. split; [|done]. by eapply Visits_le.
Qed.

Lemma drawn_after_le node drawn :
  drawn <= drawn_after (inflate node drawn) drawn.
Proof.
  destruct (inflate node drawn) as [[[r node'] drawn']|err] eqn:Hcall; simpl; [|done].
  by destruct (run_tokens node _ _ _ _ Hcall).
Qed.

(** Every call of a run is a call on a node of the subtree, from a
    state no earlier than the one the run started from. *)
Lemma run_calls node : forall drawn call,
  call ∈ run inflate node drawn ->
  exists d, drawn <= d
            /\ call.2 = inflate call.1 d
            /\ Object3D.uuid call.1 ∈ tree_uuids node.
Proof.
  induction node as [node IH] using Node_tree_ind.
  intros drawn call Hin.
  rewrite run_unfold in Hin. rewrite tree_uuids_unfold.
  apply elem_of_app in Hin as [Hin|Hin].
  - assert (Hkids : exists d, drawn <= d /\ call.2 = inflate call.1 d
                      /\ Object3D.uuid call.1
                         ∈ flat_map tree_uuids (Object3D.children node)).
    { revert drawn Hin.
      induction IH as [|c cs Hc _ IHcs]; intros drawn Hin; simpl in Hin.
      - by apply elem_of_nil in Hin.
      - apply elem_of_app in Hin as [Hin|Hin].
        + destruct (Hc _ _ Hin) as (d & Hle & Heq & Hu).
          exists d. split; [done|]. split; [done|].
          simpl. apply elem_of_app. by left.
        + destruct (IHcs _ Hin) as (d & Hle & Heq & Hu).
          exists d. split; [pose proof (drawn_after_le c drawn); lia|].
          split; [done|]. simpl. apply elem_of_app. by right. }
    destruct Hkids as (d & Hle & Heq & Hu).
    exists d. split; [done|]. split; [done|]. apply elem_of_cons. by right.
  - apply list_elem_of_singleton in Hin as ->. exists drawn.
    split; [done|]. split; [done|]. apply elem_of_cons. by left.
Qed.

End Tokens.

Lemma tally_inj i : forall j, tally i = tally j -> i = j.
Proof.
  induction i as [|i IH]; intros [|j] H; simpl in H; try discriminate; [done|].
  f_equal. apply IH. by inversion H.
Qed.

Lemma sample_generateUUID_inj i j :
  sample_generateUUID i = sample_generateUUID j -> i = j.
Proof. unfold sample_generateUUID. intros H. apply tally_inj. by inversion H. Qed.

(** * The claims of the specification *)







(** C3, as the code has it. End-to-end scenario. For the tree
    Scene -> Hips -> [LeftEye, RightEye] with a template registered for
    'RightEye' only, the call on Scene returns an entity whose single
    child is a default entity for Hips, and the single child of that
    entity is the clone of the RightEye template's content, made the
    entity of RightEye: Hips is kept, as a level of its own, because one
    of its children is. LeftEye is pruned and stays a child of the Hips
    node. Three tokens are drawn, one per entity. *)
Theorem end_to_end_scenario data generateUUID content drawn :
  exists e scene' hips eye,
    _inflate Avatar data [mkTemplate "RightEye" (Some content)] generateUUID
      sample_scene drawn
    = Normal (Some e, scene', S (S (S drawn)))
    /\ Element.children e = [hips]
    /\ Element.tagName hips = "a-entity"
    /\ Group.name (Element.object3D hips) = "Hips"
    /\ Group.uuid (Element.object3D hips) = "uuid-hips"
    /\ Element.children hips = [eye]
    /\ Element.tagName eye = Element.tagName content
    /\ Element.children eye = List.map cloneNode (Element.children content)
    /\ Element.attributes eye
       = <["name" := "RightEye"]> (Element.attributes content)
    /\ Group.name (Element.object3D eye) = "RightEye"
    /\ Group.uuid (Element.object3D eye) = "uuid-right"
    /\ List.map Object3D.name (Object3D.children scene') = []
    /\ (exists hips', Element.object3DMap hips !! "bone" = Some hips'
          /\ List.map Object3D.name (Object3D.children hips') = ["LeftEye"]).
Proof.
  destruct content as [tg attrs cl ch g m].
  eexists _, _, _, _. split; [reflexivity|].
  repeat (split; [reflexivity|]).
  eexists. split; reflexivity.
Qed.

(** C3 as stated fails: the single child of the entity returned for
    Scene is not the entity of RightEye, it is the entity of Hips. *)
Lemma end_to_end_scenario_counterexample :
  ~ exists e scene' drawn' eye,
      _inflate Avatar sample_data eye_templates sample_generateUUID sample_scene 0
      = Normal (Some e, scene', drawn')
      /\ Element.children e = [eye]
      /\ Group.name (Element.object3D eye) = "RightEye".
Proof.
  intros (e & scene' & drawn' & eye & Hcall & Hch & Hname).
  vm_compute in Hcall. injection Hcall as <- _ _.
  cbn in Hch. injection Hch as <-.
  discriminate Hname.
Qed.

(** C4. Identity swap. Let the tokens of the nodes of a hierarchy be
    pairwise distinct, and let the token source never repeat itself nor
    hand out a token of the hierarchy. After a call that returns an
    entity, the entity has the token the node had before the call and
    the node has another one; the same holds for every call of the run
    that returned an entity; and the tokens in use after the run, those
    of all nodes of the hierarchy and of all entities made for them,
    are pairwise distinct. *)
Theorem identity_swap revision data templates generateUUID node drawn e node' drawn' :
  NoDup (tree_uuids node) ->
  (forall i j, generateUUID i = generateUUID j -> i = j) ->
  (forall k, drawn <= k -> generateUUID k ∉ tree_uuids node) ->
  _inflate revision data templates generateUUID node drawn
  = Normal (Some e, node', drawn') ->
  Group.uuid (Element.object3D e) = Object3D.uuid node
  /\ Object3D.uuid node' <> Object3D.uuid node
  /\ (forall m em m' dm,
        (m, Normal (Some em, m', dm))
          ∈ run (_inflate revision data templates generateUUID) node drawn ->
        Group.uuid (Element.object3D em) = Object3D.uuid m
        /\ Object3D.uuid m' <> Object3D.uuid m)
  /\ NoDup (flat_map held
              (run (_inflate revision data templates generateUUID) node drawn)).
Proof.
  intros Hnodup Hinj Hfresh Hcall.
  assert (Hswap : forall m dm0 em m' dm,
            drawn <= dm0 ->
            Object3D.uuid m ∈ tree_uuids node ->
            _inflate revision data templates generateUUID m dm0
            = Normal (Some em, m', dm) ->
            Group.uuid (Element.object3D em) = Object3D.uuid m
            /\ Object3D.uuid m' <> Object3D.uuid m).
  { intros m dm0 em m' dm Hle Hin Hm.
    apply inflate_uuids in Hm as (Hem & d1 & Hle1 & _ & Hm').
    split; [done|]. rewrite Hm'. intros Heq.
    apply (Hfresh d1); [lia|]. by rewrite Heq. }
  split; [|split; [|split]].
  - eapply (Hswap node drawn); eauto. rewrite tree_uuids_unfold.
    apply elem_of_cons. by left.
  - eapply (Hswap node drawn); eauto. rewrite tree_uuids_unfold.
    apply elem_of_cons. by left.
  - intros m em m' dm Hin.
    apply run_calls in Hin as (d & Hle & Heq & Hu). simpl in Heq, Hu.
    eapply (Hswap m d); eauto.
  - destruct (run_tokens _ _ _ _ _ _ _ _ _ Hcall) as [Hle Hperm].
    rewrite Hperm.
    apply NoDup_app. split; [done|]. split.
    + intros x Hx Hgen. apply list_elem_of_In, in_map_iff in Hgen as (k & <- & Hk).
      apply in_seq in Hk. apply (Hfresh k); [lia|done].
    + change (NoDup (generateUUID <$> seq drawn (drawn' - drawn))).
      apply NoDup_fmap_2_strong; [|apply NoDup_seq].
      intros i j _ _. apply Hinj.
Qed.

Lemma identity_swap_witness :
  NoDup (tree_uuids sample_scene)
  /\ (forall i j, sample_generateUUID i = sample_generateUUID j -> i = j)
  /\ (forall k, 0 <= k -> sample_generateUUID k ∉ tree_uuids sample_scene)
  /\ exists e node' drawn',
       _inflate Avatar sample_data eye_templates sample_generateUUID sample_scene 0
       = Normal (Some e, node', drawn')
       /\ Group.uuid (Element.object3D e) = Object3D.uuid sample_scene
       /\ Object3D.uuid node' <> Object3D.uuid sample_scene
       /\ NoDup (flat_map held
                   (run (_inflate Avatar sample_data eye_templates sample_generateUUID)
                      sample_scene 0)).
Proof.
  assert (H1 : NoDup (tree_uuids sample_scene)).
  { apply (bool_decide_unpack (NoDup (tree_uuids sample_scene))).
    vm_compute. exact I. }
  assert (H3 : forall k, 0 <= k -> sample_generateUUID k ∉ tree_uuids sample_scene).
  { intros k _ Hin. apply list_elem_of_In in Hin. simpl in Hin.
    unfold sample_generateUUID in Hin.
    destruct Hin as [H|[H|[H|[H|[]]]]]; discriminate H. }
  split; [exact H1|]. split; [exact sample_generateUUID_inj|]. split; [exact H3|].
  eexists _, _, _. split; [reflexivity|].
  pose proof (identity_swap Avatar sample_data eye_templates sample_generateUUID
                sample_scene 0 _ _ _ H1 sample_generateUUID_inj H3 eq_refl)
    as (Ha & Hb & _ & Hd).
  split; [exact Ha|]. split; [exact Hb|exact Hd].
Defined.



(** C6, as the code has it. Order preservation. The children of a
    returned entity are the child elements that came with its cloned
    template content (none for a default entity), followed by the
    entities the loop's calls returned, one call per child of the copy
    of the child list, in the order of that list; the children the node
    is left with are those whose call returned nothing. *)
Theorem order_preservation data templates generateUUID node drawn e node' drawn' :
  _inflate Avatar data templates generateUUID node drawn
  = Normal (Some e, node', drawn') ->
  exists outs drawn1,
    Visits (_inflate Avatar data templates generateUUID)
      (Object3D.children node) drawn outs drawn1
    /\ List.length outs = List.length (Object3D.children node)
    /\ Element.children e
       = shell_children templates (Object3D.name node) ++ entities outs
    /\ (querySelector templates (Object3D.name node) = None ->
        Element.children e = entities outs)
    /\ Object3D.children node' = kept outs.
Proof.
  intros H. apply entity_children in H as (outs & d1 & Hv & Hch & Hnc).
  exists outs, d1. split; [done|].
  split; [by eapply Visits_length|]. split; [done|]. split; [|done].
  intros Hq. rewrite Hch. unfold shell_children. by rewrite Hq.
Qed.

Lemma order_preservation_witness :
  exists e node' drawn',
    _inflate Avatar sample_data hand_templates sample_generateUUID sample_hand 0
    = Normal (Some e, node', drawn')
    /\ exists outs drawn1,
         Visits (_inflate Avatar sample_data hand_templates sample_generateUUID)
           (Object3D.children sample_hand) 0 outs drawn1
         /\ List.length outs = List.length (Object3D.children sample_hand)
         /\ Element.children e
            = shell_children hand_templates (Object3D.name sample_hand)
              ++ entities outs
         /\ (querySelector hand_templates (Object3D.name sample_hand) = None ->
             Element.children e = entities outs)
         /\ Object3D.children node' = kept outs.
Proof.
  eexists _, _, _. split; [reflexivity|].
  eapply (order_preservation sample_data hand_templates sample_generateUUID
            sample_hand 0).
  reflexivity.
Defined.

(** C6 as stated fails where the entity is a cloned template whose
    content has child elements: the hand's entity has three children,
    the template's sphere before the entities of the thumb and of the
    ring finger. *)
Lemma order_preservation_counterexample :
  exists e node' drawn' A B C eA A' dA B' dB eC C' dC,
    Object3D.children sample_hand = [A; B; C]
    /\ _inflate Avatar sample_data hand_templates sample_generateUUID A 0
       = Normal (Some eA, A', dA)
    /\ _inflate Avatar sample_data hand_templates sample_generateUUID B dA
       = Normal (None, B', dB)
    /\ _inflate Avatar sample_data hand_templates sample_generateUUID C dB
       = Normal (Some eC, C', dC)
    /\ _inflate Avatar sample_data hand_templates sample_generateUUID sample_hand 0
       = Normal (Some e, node', drawn')
    /\ Element.children e <> [eA; eC].
Proof.
  do 14 eexists.
  split; [reflexivity|]. split; [reflexivity|]. split; [reflexivity|].
  split; [reflexivity|]. split; [reflexivity|].
  intros H. apply (f_equal List.length) in H. vm_compute in H. discriminate.
Qed.

(** C7. A template without content. On a joint named 'Hips' for which
    [<template data-name="Hips"></template>] is registered, the revision
    in part_000 throws a TypeError where the current revision returns a
    default entity. *)
Theorem empty_template_part_000 :
  _inflate Part000 sample_data empty_hips_template sample_generateUUID
    (bone "Hips" "uuid-hips" []) 0
  = Throw "TypeError"
  /\ exists e node',
       _inflate Avatar sample_data empty_hips_template sample_generateUUID
         (bone "Hips" "uuid-hips" []) 0
       = Normal (Some e, node', 1)
       /\ Element.tagName e = "a-entity"
       /\ Element.children e = [].
Proof.
  split; [vm_compute; reflexivity|].
  eexists _, _. split; [vm_compute; reflexivity|]. split; reflexivity.
Qed.

(** C8, as the code has it. A node for which the call returns nothing
    keeps its name, type, transform, matrix and identity token, and it
    keeps all its children, each of them pruned in turn; no token is
    drawn. Its [visible] flag alone is written: on a 'SkinnedMesh' it is
    set from the [hands], [shirt] or [head] flag by the node's name,
    on a node of another type it is left as it was. *)
Theorem pruned_node_only_visibility revision data templates generateUUID
    node drawn node' drawn' :
  _inflate revision data templates generateUUID node drawn
  = Normal (None, node', drawn') ->
  node' = visit data node
  /\ drawn' = drawn
  /\ Object3D.name node' = Object3D.name node
  /\ Object3D.type node' = Object3D.type node
  /\ Object3D.position node' = Object3D.position node
  /\ Object3D.rotation node' = Object3D.rotation node
  /\ Object3D.quaternion node' = Object3D.quaternion node
  /\ Object3D.scale node' = Object3D.scale node
  /\ Object3D.matrix node' = Object3D.matrix node
  /\ Object3D.matrixAutoUpdate node' = Object3D.matrixAutoUpdate node
  /\ Object3D.uuid node' = Object3D.uuid node
  /\ Object3D.children node' = List.map (visit data) (Object3D.children node)
  /\ Object3D.visible node'
     = if String.eqb (Object3D.type node) "SkinnedMesh" then
         if String.eqb (Object3D.name node) "Wolf3D_Hands" then hands data
         else if String.eqb (Object3D.name node) "Wolf3D_Shirt" then shirt data
         else head data
       else Object3D.visible node.
Proof.
  intros H. apply pruned_is_visit in H as [-> ->].
  split; [done|]. split; [done|]. apply visit_fields.
Qed.

Lemma pruned_node_only_visibility_witness :
  exists node' drawn',
    _inflate Avatar sample_data [] sample_generateUUID sample_hand 0
    = Normal (None, node', drawn')
    /\ node' = visit sample_data sample_hand
    /\ drawn' = 0
    /\ Object3D.uuid node' = Object3D.uuid sample_hand.
Proof.
  eexists _, _. split; [reflexivity|].
  pose proof (pruned_node_only_visibility Avatar sample_data [] sample_generateUUID
                sample_hand 0 _ _ eq_refl) as H.
  split; [apply H|]. split; apply H.
Defined.

(** C8 as stated fails on a skinned mesh: with [hands: false], the
    pruned mesh of the hands goes from shown to hidden. *)
Lemma pruned_node_only_visibility_counterexample :
  exists node',
    _inflate Avatar (mkData false true true) [] sample_generateUUID
      sample_hands_mesh 0
    = Normal (None, node', 0)
    /\ Object3D.visible sample_hands_mesh = true
    /\ Object3D.visible node' = false
    /\ node' <> sample_hands_mesh.
Proof.
  eexists. split; [reflexivity|]. split; [reflexivity|]. split; [reflexivity|].
  intros H. apply (f_equal Object3D.visible) in H. discriminate.
Qed.





(** * Further properties of the code *)

(** * Further properties of [_inflate] *)

(** ** The inclusion rule in closed form *)



(** ** One token per entity *)

Lemma descendants_unfold node :
  descendants node
  = flat_map (fun child => child :: descendants child) (Object3D.children node).
Proof. destruct node; reflexivity. Qed.

Lemma filter_flat_map {A B} (p : B -> bool) (f : A -> list B) l :
  List.filter p (flat_map f l) = flat_map (fun x => List.filter p (f x)) l.
Proof.
  induction l as [|x l IH]; [done|].
  simpl. by rewrite List.filter_app, IH.
Qed.

Section Count.

Variable revision : Revision.
Variable data : Data.
Variable templates : list Template.
Variable generateUUID : nat -> string.

Local Abbreviation inflate := (_inflate revision data templates generateUUID).

Lemma inflate_drawn node : forall drawn r node' drawn',
  inflate node drawn = Normal (r, node', drawn') ->
  drawn' = drawn
           + List.length (List.filter (qualifies templates)
                            (node :: descendants node)).
Proof.
  induction node as [node IH] using Node_tree_ind.
  intros drawn r node' drawn' Hcall.
  pose proof (inflate_qualifies _ _ _ _ _ _ _ _ _ Hcall) as Hq.
  apply inflate_inv in Hcall as (outs & d1 & Hv & Hcase).
  assert (Hkids : d1 = drawn
                       + List.length (List.filter (qualifies templates)
                                        (descendants node))).
  { rewrite descendants_unfold. clear Hcase Hq.
    induction Hv as [|c cs d rc c' da outs db Hc Hrest IHv].
    - simpl. lia.
    - apply Forall_cons in IH as [IHc IHcs].
      rewrite (IHv IHcs), (IHc _ _ _ _ Hc).
      cbn [flat_map]. rewrite List.filter_app, List.length_app. lia. }
  cbn [List.filter].
  destruct Hcase as [(-> & _ & _ & _ & _ & ->)|(el & _ & _ & Heq)].
  - destruct (qualifies templates node) eqn:Hqn.
    + destruct (proj2 Hq eq_refl) as [? ?]. discriminate.
    + lia.
  - pose proof (wrap_drawn revision generateUUID
                  (after_loop data node outs) el (entities outs) d1) as Hd.
    destruct (wrap revision generateUUID _ el _ d1) as [[e n] d].
    cbn [snd] in Hd. inversion Heq; subst.
    rewrite (proj1 Hq (ltac:(eauto) : is_Some (Some e))).
    cbn [List.length]. lia.
Qed.

End Count.

(** X2. A call that returns draws exactly one token for each node of
    the subtree that is kept: the node itself and the nodes below it
    that satisfy the inclusion rule. *)
Theorem one_token_per_entity revision data templates generateUUID
    node drawn r node' drawn' :
  _inflate revision data templates generateUUID node drawn
  = Normal (r, node', drawn') ->
  drawn' = drawn
           + List.length (List.filter (qualifies templates)
                            (node :: descendants node)).
Proof. apply inflate_drawn. Qed.

Lemma one_token_per_entity_witness :
  exists r node',
    _inflate Avatar sample_data eye_templates sample_generateUUID sample_scene 0
    = Normal (r, node', 3)
    /\ 3 = 0 + List.length (List.filter (qualifies eye_templates)
                              (sample_scene :: descendants sample_scene)).
Proof.
  eexists _, _. split; [reflexivity|].
  eapply (one_token_per_entity Avatar sample_data eye_templates
            sample_generateUUID sample_scene 0).
  reflexivity.
Defined.

(** ** The class token, the payload, the visibility flag *)

Lemma remove_invalid_valid s :
  forallb is_word_or_hyphen (list_ascii_of_string (remove_invalid s)) = true.
Proof.
  induction s as [|c s IH]; [done|].
  simpl. destruct (is_word_or_hyphen c) eqn:Hc; [|done].
  simpl. by rewrite Hc.
Qed.

Lemma remove_invalid_id s :
  forallb is_word_or_hyphen (list_ascii_of_string s) = true ->
  remove_invalid s = s.
Proof.
  induction s as [|c s IH]; [done|].
  simpl. intros H. apply andb_true_iff in H as [Hc Hs].
  rewrite Hc. f_equal. by apply IH.
Qed.

Lemma remove_invalid_subsequence s :
  sublist (list_ascii_of_string (remove_invalid s)) (list_ascii_of_string s).
Proof.
  induction s as [|c s IH]; [done|].
  simpl. destruct (is_word_or_hyphen c); simpl.
  - by apply sublist_skip.
  - by apply sublist_cons.
Qed.

(** X3. [s.replace(/[^\w-]/g, '')] keeps the letters, digits,
    underscores and hyphens of [s] in their order and nothing else: the
    result is a subsequence of [s] made of such characters only, a
    string made of such characters is returned as it is, and applying
    the replacement twice is applying it once. *)
Theorem remove_invalid_spec s :
  forallb is_word_or_hyphen (list_ascii_of_string (remove_invalid s)) = true
  /\ sublist (list_ascii_of_string (remove_invalid s)) (list_ascii_of_string s)
  /\ (forallb is_word_or_hyphen (list_ascii_of_string s) = true ->
      remove_invalid s = s)
  /\ remove_invalid (remove_invalid s) = remove_invalid s.
Proof.
  split; [apply remove_invalid_valid|].
  split; [apply remove_invalid_subsequence|].
  split; [apply remove_invalid_id|].
  apply remove_invalid_id, remove_invalid_valid.
Qed.

Lemma remove_invalid_spec_witness :
  forallb is_word_or_hyphen (list_ascii_of_string "Wolf3D_Hands") = true
  /\ remove_invalid "Wolf3D_Hands" = "Wolf3D_Hands".
Proof.
  split; [reflexivity|].
  exact (proj1 (proj2 (proj2 (remove_invalid_spec "Wolf3D_Hands"))) eq_refl).
Defined.

Section WrapMore.

Variable revision : Revision.
Variable generateUUID : nat -> string.

Local Abbreviation wrap' := (wrap revision generateUUID).

Lemma wrap_classList node el ces drawn :
  let token := remove_invalid (if String.eqb (Object3D.name node) EmptyString
                               then Object3D.uuid node else Object3D.name node) in
  Element.classList (wrap' node el ces drawn).1.1
  = if bool_decide (token ∈ Element.classList el)
    then Element.classList el
    else Element.classList el ++ [token].
Proof.
  unfold wrap. rewrite fold_left_appendChild.
  destruct revision, (String.eqb (Object3D.name node) "Scene"); reflexivity.
Qed.

Lemma wrap_payload node el ces drawn :
  Element.object3DMap (wrap' node el ces drawn).1.1
    !! toLowerCase (Object3D.type node)
  = Some (wrap' node el ces drawn).1.2
  /\ Object3D.name (wrap' node el ces drawn).1.2 = Object3D.name node
  /\ Object3D.type (wrap' node el ces drawn).1.2 = Object3D.type node
  /\ Object3D.visible (wrap' node el ces drawn).1.2 = Object3D.visible node.
Proof.
  unfold wrap.
  destruct (negb (String.eqb (order (Object3D.rotation node)) "YXZ"));
    cbn [fst snd]; (split; [apply lookup_insert_eq|repeat split; reflexivity]).
Qed.

Lemma wrap_name_attribute node el ces drawn :
  revision = Avatar ->
  Element.attributes (wrap' node el ces drawn).1.1 !! "name"
  = Some (Object3D.name node).
Proof.
  intros ->. unfold wrap. rewrite fold_left_appendChild.
  destruct (String.eqb (Object3D.name node) "Scene"); simpl;
    by rewrite ?lookup_insert_ne, lookup_insert_eq by done.
Qed.

End WrapMore.

Lemma after_loop_type data node outs :
  Object3D.type (after_loop data node outs) = Object3D.type node.
Proof. unfold after_loop, apply_visibility. case_conditions; reflexivity. Qed.

Lemma after_loop_visible data node outs :
  Object3D.visible (after_loop data node outs)
  = if String.eqb (Object3D.type node) "SkinnedMesh" then
      if String.eqb (Object3D.name node) "Wolf3D_Hands" then hands data
      else if String.eqb (Object3D.name node) "Wolf3D_Shirt" then shirt data
      else head data
    else Object3D.visible node.
Proof. unfold after_loop, apply_visibility. case_conditions; reflexivity. Qed.

(** X4. The class of an entity. The entity of a node has, after the
    classes that came with its template content, the node's name with
    the characters outside [A-Za-z0-9_-] removed, or the node's token
    so treated when the name is empty; the class is not added a second
    time when it is there already. (The DOM rejects an empty class: the
    statement is for names that leave one.) *)
Theorem entity_class revision data templates generateUUID
    node drawn e node' drawn' :
  let token := remove_invalid (if String.eqb (Object3D.name node) EmptyString
                               then Object3D.uuid node else Object3D.name node) in
  token <> EmptyString ->
  _inflate revision data templates generateUUID node drawn
  = Normal (Some e, node', drawn') ->
  exists el,
    resolve_el revision (querySelector templates (Object3D.name node)) = Normal el
    /\ token ∈ Element.classList e
    /\ Element.classList e
       = if bool_decide (token ∈ Element.classList el)
         then Element.classList el
         else Element.classList el ++ [token].
Proof.
  intros token _ Hcall.
  apply inflate_inv_Some in Hcall as (outs & d1 & el & _ & _ & Hel & Heq).
  exists el. split; [done|].
  pose proof (wrap_classList revision generateUUID
                (after_loop data node outs) el (entities outs) d1) as Hcl.
  cbv zeta in Hcl. rewrite <- Heq in Hcl. cbn [fst] in Hcl.
  destruct (after_loop_transform data node outs) as (_ & _ & _ & _ & Hu).
  rewrite (after_loop_name data), Hu in Hcl.
  fold token in Hcl. rewrite Hcl.
  split; [|done].
  case_bool_decide as Hin; [done|]. apply elem_of_app. right.
  by apply list_elem_of_singleton.
Qed.

Lemma entity_class_witness :
  remove_invalid (if String.eqb (Object3D.name right_eye) EmptyString
                  then Object3D.uuid right_eye else Object3D.name right_eye)
  <> EmptyString
  /\ exists e node' drawn' el,
       _inflate Avatar sample_data eye_templates sample_generateUUID right_eye 0
       = Normal (Some e, node', drawn')
       /\ resolve_el Avatar (querySelector eye_templates (Object3D.name right_eye))
          = Normal el
       /\ "RightEye" ∈ Element.classList e.
Proof.
  assert (Hne : remove_invalid
                  (if String.eqb (Object3D.name right_eye) EmptyString
                   then Object3D.uuid right_eye else Object3D.name right_eye)
                <> EmptyString) by (vm_compute; discriminate).
  split; [exact Hne|].
  eexists _, _, _.
  destruct (entity_class Avatar sample_data eye_templates sample_generateUUID
              right_eye 0 _ _ _ Hne eq_refl) as (el & Hel & Hin & _).
  exists el. split; [reflexivity|]. split; [exact Hel|exact Hin].
Defined.

(** X5. The payload of an entity. The entity of a node holds the node
    itself, as the call leaves it, in the slot named by the node's type
    in lower case; the entity's group has the node's name, which the
    node keeps as it keeps its type; and in the current revision the
    entity's [name] attribute is the node's name. *)
Theorem entity_payload revision data templates generateUUID
    node drawn e node' drawn' :
  _inflate revision data templates generateUUID node drawn
  = Normal (Some e, node', drawn') ->
  Element.object3DMap e !! toLowerCase (Object3D.type node) = Some node'
  /\ Group.name (Element.object3D e) = Object3D.name node
  /\ Object3D.name node' = Object3D.name node
  /\ Object3D.type node' = Object3D.type node
  /\ (revision = Avatar ->
      Element.attributes e !! "name" = Some (Object3D.name node)).
Proof.
  intros Hcall.
  apply inflate_inv_Some in Hcall as (outs & d1 & el & _ & _ & _ & Heq).
  pose proof (wrap_payload revision generateUUID
                (after_loop data node outs) el (entities outs) d1) as Hp.
  pose proof (wrap_object3D_name revision generateUUID
                (after_loop data node outs) el (entities outs) d1) as Hn.
  pose proof (wrap_name_attribute revision generateUUID
                (after_loop data node outs) el (entities outs) d1) as Ha.
  rewrite <- Heq in Hp, Hn, Ha. cbn [fst snd] in Hp, Hn, Ha.
  rewrite (after_loop_name data) in Hp, Hn, Ha.
  rewrite after_loop_type in Hp.
  destruct Hp as (Hslot & Hname & Htype & _).
  repeat split; done.
Qed.

Lemma entity_payload_witness :
  exists e node' drawn',
    _inflate Avatar sample_data eye_templates sample_generateUUID right_eye 0
    = Normal (Some e, node', drawn')
    /\ Element.object3DMap e !! "bone" = Some node'
    /\ Element.attributes e !! "name" = Some "RightEye".
Proof.
  eexists _, _, _. split; [reflexivity|].
  pose proof (entity_payload Avatar sample_data eye_templates sample_generateUUID
                right_eye 0 _ _ _ eq_refl) as (Hslot & _ & _ & _ & Hattr).
  split; [exact Hslot|exact (Hattr eq_refl)].
Defined.

(** X6. Visibility. Whatever a call returns, it leaves a 'SkinnedMesh'
    node with the [visible] flag its name selects ([hands] for
    'Wolf3D_Hands', [shirt] for 'Wolf3D_Shirt', [head] for any other
    name) and a node of another type with the flag it had: a hidden
    mesh that becomes an entity stays hidden. *)
Theorem visibility_follows_flags revision data templates generateUUID
    node drawn r node' drawn' :
  _inflate revision data templates generateUUID node drawn
  = Normal (r, node', drawn') ->
  Object3D.visible node'
  = if String.eqb (Object3D.type node) "SkinnedMesh" then
      if String.eqb (Object3D.name node) "Wolf3D_Hands" then hands data
      else if String.eqb (Object3D.name node) "Wolf3D_Shirt" then shirt data
      else head data
    else Object3D.visible node.
Proof.
  intros Hcall.
  apply inflate_inv in Hcall as (outs & d1 & _ & Hcase).
  rewrite <- (after_loop_visible data node outs).
  destruct Hcase as [(_ & _ & _ & _ & -> & _)|(el & _ & _ & Heq)].
  - reflexivity.
  - pose proof (wrap_payload revision generateUUID
                  (after_loop data node outs) el (entities outs) d1)
      as (_ & _ & _ & Hv).
    destruct (wrap revision generateUUID _ el _ d1) as [[e n] d].
    cbn [fst snd] in Hv. inversion Heq; subst. exact Hv.
Qed.

(** * The idle timer *)

Section IdleTimer.

Import ReadyplayermeAvatar.

Context {num : Type} {jsnum : JSNumber num}.




Lemma emit_moved_loop event (ls : list Listener) : forall (c : @t num),
  let c' := fold_left (fun c l => if Listener_eqb l event then on_moved c else c) ls c in
  el c' = el c
  /\ listeners c' = listeners c
  /\ idleTimeout c' = idleTimeout c
  /\ isIdle c' = isIdle c
  /\ idleMixer c' = idleMixer c
  /\ idleAnimation c' = idleAnimation c
  /\ idle c' = if existsb (fun l => Listener_eqb l event) ls
               then idleTimeout c else idle c.
Proof.
  induction ls as [|l ls IH]; intros c; [done|].
  cbn [fold_left existsb]. destruct (Listener_eqb l event); cbn [orb].
  - destruct (IH (on_moved c)) as (H1 & H2 & H3 & H4 & H5 & H6 & H7).
    repeat split; try done.
    rewrite H7. simpl. by destruct (existsb _ ls).
  - apply IH.
Qed.

Lemma emit_moved_fields event (c : @t num) :
  el (emit_moved event c) = el c
  /\ listeners (emit_moved event c) = listeners c
  /\ idleTimeout (emit_moved event c) = idleTimeout c
  /\ isIdle (emit_moved event c) = isIdle c
  /\ idleMixer (emit_moved event c) = idleMixer c
  /\ idleAnimation (emit_moved event c) = idleAnimation c
  /\ idle (emit_moved event c)
     = if negb (Listener_eqb event model_loaded)
          && existsb (fun l => Listener_eqb l event) (listeners c)
       then idleTimeout c else idle c.
Proof. destruct event; [done|apply emit_moved_loop..]. Qed.

Lemma run_cons_Tick delta events (c : @t num) :
  run (Tick delta :: events) c
  = ((run events (tick delta c).1).1,
     (tick delta c).2 ++ (run events (tick delta c).1).2).
Proof.
  simpl. destruct (tick delta c) as [c1 e1]. simpl.
  by destruct (run events c1).
Qed.






(** X9. Movement ends idling. When the component listens to a movement
    event and a frame is shorter than the timeout, the first frame
    after the event leaves the avatar not idle: all actions are stopped
    if it was idle, and nothing is called if it was not. *)
Theorem movement_ends_idling event delta (c : @t num) :
  idleMixer c = true ->
  event ∈ listeners c ->
  event <> model_loaded ->
  num_gt (num_sub (idleTimeout c) delta) num_zero = true ->
  num_le (num_sub (idleTimeout c) delta) num_zero = false ->
  let '(c', effects) := run [Moved event; Tick delta] c in
  isIdle c' = false
  /\ idle c' = num_sub (idleTimeout c) delta
  /\ effects = if isIdle c then [idleMixer_stopAllAction] else [].
Proof.
  intros Hm Hin Hev Hgt Hle. cbn [run].
  destruct (emit_moved_fields event c) as (_ & _ & HT & Hb & Hm' & _ & Hi).
  assert (Hex : existsb (fun l => Listener_eqb l event) (listeners c) = true).
  { apply existsb_exists. exists event. split; [by apply list_elem_of_In|].
    by destruct event. }
  rewrite Hex in Hi.
  assert (Hne : Listener_eqb event model_loaded = false) by (by destruct event).
  rewrite Hne in Hi. cbn [negb andb] in Hi.
  unfold tick. rewrite Hm', Hm. cbn [negb].
  destruct (emit_moved event c) as [e ls T i b a m]; cbn in *. subst.
  rewrite Hgt, Hle. cbn. destruct (isIdle c); cbn; done.
Qed.

End IdleTimer.

(** * The 'model-loaded' listener and [update] *)

Section ModelLoaded.

Import ReadyplayermeAvatar.

Context {num : Type} {jsnum : JSNumber num}.

Variable data : Data.
Variable templates : list Template.
Variable generateUUID : nat -> string.

Lemma setup_idle_el clip (c : @t num) :
  Element.children (el (setup_idle clip c)) = Element.children (el c)
  /\ Element.object3DMap (el (setup_idle clip c)) = Element.object3DMap (el c).
Proof. done. Qed.


Lemma on_model_loaded_total animations drawn (c : @t num) mesh :
  Element.object3DMap (el c) !! "mesh" = Some mesh ->
  exists c' drawn',
    on_model_loaded data templates generateUUID animations drawn c
    = Normal (c', drawn').
Proof.
  intros Hmesh. unfold on_model_loaded. rewrite Hmesh.
  destruct (inflate_total Avatar data templates generateUUID
              (avatar_needs_no_content templates) mesh drawn)
    as (r & mesh' & drawn' & ->).
  destruct r; eauto.
Qed.

Lemma run_without_mixer events : forall (c : @t num),
  idleMixer c = false ->
  (run events c).2 = []
  /\ isIdle (run events c).1 = isIdle c
  /\ idleMixer (run events c).1 = false.
Proof.
  induction events as [|[delta|event] events IH]; intros c Hm; [done| |].
  - assert (Ht : tick delta c = (c, [])) by (unfold tick; by rewrite Hm).
    rewrite run_cons_Tick, Ht. cbn [fst snd app]. by apply IH.
  - cbn [run].
    destruct (emit_moved_fields event c) as (_ & _ & _ & Hb & Hm' & _).
    rewrite Hm in Hm'. destruct (IH _ Hm') as (He & Hb' & Hm'').
    rewrite He, Hb', Hb. done.
Qed.

(** X11. The idle timer is armed by a fifth animation, and only by
    that. After the listener has run on a component whose mixer was not
    set, the mixer is set exactly when the model has an animation at
    index 4; that animation is then the idle animation and the
    component listens to both movement events. When the model has
    fewer, no sequence of frames and movement events makes the
    component call the mixer or the animation, and it never turns idle. *)
Theorem idle_needs_fifth_animation animations drawn (c c' : @t num) drawn' :
  idleMixer c = false ->
  isIdle c = false ->
  on_model_loaded data templates generateUUID animations drawn c
  = Normal (c', drawn') ->
  (idleMixer c' = true <->
   exists clips fifth, animations = Some clips /\ nth_error clips 4 = Some fifth)
  /\ (forall clips fifth,
        animations = Some clips -> nth_error clips 4 = Some fifth ->
        option_map clip (idleAnimation c') = Some fifth
        /\ listeners c'
           = listeners c ++ [absolutePositionChanged; absoluteRotationChanged])
  /\ (idleMixer c' = false ->
      forall events,
        (run events c').2 = [] /\ isIdle (run events c').1 = false).
Proof.
  intros Hm Hb. unfold on_model_loaded.
  destruct (Element.object3DMap (el c) !! "mesh") as [mesh|]; [|discriminate].
  set (c1 := match animations with
             | Some clips =>
                 match nth_error clips 4 with
                 | Some clip => setup_idle clip c
                 | None => c
                 end
             | None => c
             end).
  destruct (_inflate Avatar data templates generateUUID mesh drawn)
    as [[[r mesh'] d]|err]; [|discriminate].
  intros Hres.
  assert (Hc' : idleMixer c' = idleMixer c1 /\ isIdle c' = isIdle c1
                /\ idleAnimation c' = idleAnimation c1
                /\ listeners c' = listeners c1).
  { destruct r; inversion Hres; subst; done. }
  destruct Hc' as (Hm' & Hb' & Ha' & Hl').
  rewrite Hm', Ha', Hl'. clear Hres.
  split; [|split].
  - subst c1. destruct animations as [clips|].
    + destruct (nth_error clips 4) as [clip|] eqn:Hn.
      * split; [eauto|done].
      * rewrite Hm. split; [done|]. intros (? & ? & [= <-] & ?). congruence.
    + rewrite Hm. split; [done|]. intros (? & ? & ? & ?). discriminate.
  - intros clips fifth -> Hn. subst c1. rewrite Hn.
    split; [done|]. cbn. by rewrite <- app_assoc.
  - intros Hoff events.
    rewrite <- Hm' in Hoff.
    destruct (run_without_mixer events c' Hoff) as (He & Hbb & _).
    split; [done|]. rewrite Hbb, Hb'.
    subst c1. destruct animations as [clips|]; [|done].
    destruct (nth_error clips 4); [|done].
    rewrite Hm' in Hoff. discriminate.
Qed.

(** Without a model the listener fails: reading the animations off a
    missing mesh throws. *)
Lemma model_loaded_without_mesh animations drawn (c : @t num) :
  Element.object3DMap (el c) !! "mesh" = None ->
  on_model_loaded data templates generateUUID animations drawn c
  = Throw "TypeError".
Proof. intros H. unfold on_model_loaded. by rewrite H. Qed.

End ModelLoaded.

Section Update.

Import ReadyplayermeAvatar.

Context {num : Type} {jsnum : JSNumber num}.

Lemma update_fields data_model (c : @t num) :
  idleTimeout (update data_model c) = idleTimeout c
  /\ idle (update data_model c) = idle c
  /\ isIdle (update data_model c) = isIdle c
  /\ idleMixer (update data_model c) = idleMixer c
  /\ Element.children (el (update data_model c)) = Element.children (el c)
  /\ listeners (update data_model c)
     = listeners c
       ++ (if String.eqb data_model EmptyString then [] else [model_loaded])
  /\ Element.attributes (el (update data_model c)) !! "gltf-model"
     = if String.eqb data_model EmptyString
       then Element.attributes (el c) !! "gltf-model"
       else Some data_model.
Proof.
  unfold update. destruct (String.eqb data_model EmptyString).
  - rewrite app_nil_r. done.
  - cbn. repeat split; try done. apply lookup_insert_eq.
Qed.

Lemma updates_app models more (c : @t num) :
  updates (models ++ more) c = updates more (updates models c).
Proof. apply fold_left_app. Qed.

Lemma updates_empty models : forall (c : @t num),
  Forall (fun m => m = EmptyString) models -> updates models c = c.
Proof.
  induction models as [|m models IH]; intros c Hall; [done|].
  apply Forall_cons in Hall as [-> Hall]. cbn. by apply IH.
Qed.

(** X12. The model attribute shows the last model that was not empty.
    After any updates, one with the model [m] and then any number with
    an empty model, the element's [gltf-model] attribute is [m]: an
    update with an empty model changes nothing, so clearing the model
    does not unload it. *)
Theorem update_keeps_last_model models m cleared (c : @t num) :
  m <> EmptyString ->
  Forall (fun m => m = EmptyString) cleared ->
  Element.attributes (el (updates (models ++ m :: cleared) c)) !! "gltf-model"
  = Some m
  /\ updates (models ++ m :: cleared) c = updates (models ++ [m]) c.
Proof.
  intros Hm Hcleared.
  assert (Heq : updates (models ++ m :: cleared) c = updates (models ++ [m]) c).
  { change (m :: cleared) with ([m] ++ cleared).
    rewrite app_assoc, updates_app. by apply updates_empty. }
  split; [|done]. rewrite Heq, updates_app. cbn.
  destruct (update_fields m (updates models c)) as (_ & _ & _ & _ & _ & _ & Hattr).
  rewrite Hattr. apply String.eqb_neq in Hm. by rewrite Hm.
Qed.

(** X13. Listeners for 'model-loaded' pile up. Every update with a
    model adds one more and nothing takes one away, [remove] included:
    after the updates [models] the element has its earlier listeners
    and one 'model-loaded' listener for each model that was not empty. *)
Theorem update_listeners_accumulate models : forall (c : @t num),
  listeners (updates models c)
  = listeners c
    ++ repeat model_loaded
         (List.length
            (List.filter (fun m => negb (String.eqb m EmptyString)) models))
  /\ listeners (remove (updates models c)) = listeners (updates models c).
Proof.
  induction models as [|m models IH]; intros c.
  - cbn. by rewrite app_nil_r.
  - cbn [updates fold_left]. fold (updates models (update m c)).
    destruct (IH (update m c)) as [Hl Hr]. split; [|done]. rewrite Hl.
    destruct (update_fields m c) as (_ & _ & _ & _ & _ & -> & _).
    cbn [List.filter]. destruct (String.eqb m EmptyString); cbn.
    + by rewrite app_nil_r.
    + by rewrite <- app_assoc.
Qed.

End Update.

(** * mediastream-listener *)

Section Loudness.

Import MediastreamListener.

Lemma getLoudness_loop dataArray : forall start,
  let r := fold_left (fun m d => if N.ltb m d then d else m) dataArray start in
  (start <= r)%N
  /\ (forall d, d ∈ dataArray -> (d <= r)%N)
  /\ (r = start \/ r ∈ dataArray).
Proof.
  induction dataArray as [|d dataArray IH]; intros start; cbn.
  - split; [lia|]. split; [|by left]. intros d Hd. by apply elem_of_nil in Hd.
  - destruct (IH (if N.ltb start d then d else start)) as (Hle & Hall & Hin).
    destruct (N.ltb_spec start d) as [Hlt|Hge].
    + split; [lia|]. split.
      * intros x Hx. apply elem_of_cons in Hx as [->|Hx]; [done|by apply Hall].
      * right. destruct Hin as [->|Hin]; apply elem_of_cons; [by left|by right].
    + split; [done|]. split.
      * intros x Hx. apply elem_of_cons in Hx as [->|Hx]; [lia|by apply Hall].
      * destruct Hin as [->|Hin]; [by left|right; apply elem_of_cons; by right].
Qed.

(** X14. [_getLoudness] returns the largest entry of the data array:
    no entry is above it, it is an entry unless it is zero, it is zero
    for an empty array, and it is at most 255 when the entries are
    bytes. *)
Theorem getLoudness_is_maximum dataArray :
  (forall d, d ∈ dataArray -> (d <= _getLoudness dataArray)%N)
  /\ (_getLoudness dataArray = 0%N \/ _getLoudness dataArray ∈ dataArray)
  /\ (dataArray = [] -> _getLoudness dataArray = 0%N)
  /\ (Forall (fun d => (d <= 255)%N) dataArray ->
      (_getLoudness dataArray <= 255)%N).
Proof.
  destruct (getLoudness_loop dataArray 0%N) as (_ & Hall & Hin).
  fold (_getLoudness dataArray) in Hall, Hin.
  split; [done|]. split; [done|]. split; [by intros ->|].
  intros Hbytes. destruct Hin as [Hin|Hin]; [rewrite Hin; lia|].
  rewrite Forall_forall in Hbytes. by apply Hbytes.
Qed.

Lemma tick_alternate dataArray c :
  alternate (match (tick dataArray c).2 with Some e => [e] | None => [] end)
    (isMakingNoise c)
  = Some (isMakingNoise (tick dataArray c).1).
Proof.
  unfold tick. destruct c as [e s b items]; cbn.
  destruct s; cbn; [|done].
  destruct (N.ltb 127 (_getLoudness dataArray)), b; done.
Qed.

Lemma alternate_app events more : forall noisy,
  alternate (events ++ more) noisy
  = match alternate events noisy with
    | Some b => alternate more b
    | None => None
    end.
Proof.
  induction events as [|e events IH]; intros noisy; [done|].
  destruct e, noisy; cbn; auto.
Qed.

Lemma noise_ticks_cons dataArray frames c :
  ticks (dataArray :: frames) c
  = ((ticks frames (tick dataArray c).1).1,
     match (tick dataArray c).2 with Some e => [e] | None => [] end
     ++ (ticks frames (tick dataArray c).1).2).
Proof.
  cbn. destruct (tick dataArray c) as [c1 [e|]]; cbn;
    by destruct (ticks frames c1).
Qed.

Lemma noise_ticks_app frames more : forall c,
  ticks (frames ++ more) c
  = ((ticks more (ticks frames c).1).1,
     (ticks frames c).2 ++ (ticks more (ticks frames c).1).2).
Proof.
  induction frames as [|f frames IH]; intros c.
  - cbn. by destruct (ticks more c).
  - rewrite <- app_comm_cons, !noise_ticks_cons, IH. cbn [fst snd].
    by rewrite app_assoc.
Qed.

Lemma noise_tick_fields dataArray c :
  el (tick dataArray c).1 = el c
  /\ stream (tick dataArray c).1 = stream c
  /\ loudItems (tick dataArray c).1 = loudItems c.
Proof.
  unfold tick. destruct c as [e s b items]; cbn.
  destruct s; cbn; [|done].
  destruct (N.ltb 127 (_getLoudness dataArray)), b; done.
Qed.

Lemma noise_ticks_fields frames : forall c,
  el (ticks frames c).1 = el c /\ stream (ticks frames c).1 = stream c.
Proof.
  induction frames as [|f frames IH]; intros c; [done|].
  rewrite noise_ticks_cons. cbn [fst].
  destruct (IH (tick f c).1) as [-> ->].
  by destruct (noise_tick_fields f c) as (-> & -> & _).
Qed.

(** X15. Loud and silent events take turns. Over any sequence of
    frames the component emits 'loud' only when it was not making
    noise and 'silent' only when it was, so the two alternate, and the
    flag they leave is [isMakingNoise]; every loud event names the
    component's own element and a loudness above 127. *)
Theorem noise_events_alternate frames c :
  alternate (ticks frames c).2 (isMakingNoise c)
  = Some (isMakingNoise (ticks frames c).1)
  /\ (forall detail,
        mediastream_listener_loud detail ∈ (ticks frames c).2 ->
        Detail.el detail = el c /\ (127 < Detail.loudness detail)%N).
Proof.
  revert c. induction frames as [|f frames IH]; intros c.
  - split; [done|]. intros d Hd. by apply elem_of_nil in Hd.
  - rewrite noise_ticks_cons. cbn [fst snd].
    destruct (IH (tick f c).1) as [Halt Hloud]. split.
    + by rewrite alternate_app, tick_alternate, Halt.
    + intros detail Hin. apply elem_of_app in Hin as [Hin|Hin].
      * clear -Hin. unfold tick in Hin. destruct c as [e s b items]; cbn in *.
        destruct s; cbn in Hin; [|by apply elem_of_nil in Hin].
        destruct (N.ltb_spec 127 (_getLoudness f)) as [Hlt|Hge], b; cbn in Hin;
          try (by apply elem_of_nil in Hin);
          apply list_elem_of_singleton in Hin; inversion Hin; subst; done.
      * destruct (Hloud detail Hin) as [He Hl]. split; [|done].
        rewrite He. by destruct (noise_tick_fields f c) as (-> & _).
Qed.

(** X16. The flag follows the last frame. With a stream set, after any
    frames and one more the component is making noise exactly when the
    largest entry of that last frame is above 127; without a stream no
    frame changes the component or emits anything. *)
Theorem noise_follows_last_frame frames dataArray c :
  (stream c = true ->
   isMakingNoise (ticks (frames ++ [dataArray]) c).1
   = N.ltb 127 (_getLoudness dataArray))
  /\ (stream c = false -> ticks (frames ++ [dataArray]) c = (c, [])).
Proof.
  split.
  - intros Hs. rewrite noise_ticks_app. cbn [fst]. rewrite noise_ticks_cons. cbn [ticks fst].
    destruct (noise_ticks_fields frames c) as [_ Hs']. rewrite Hs in Hs'.
    unfold tick. rewrite Hs'. cbn [negb].
    destruct (N.ltb 127 (_getLoudness dataArray)),
      (isMakingNoise (ticks frames c).1) eqn:Hb; cbn; done.
  - intros Hs. generalize (frames ++ [dataArray]). intros l.
    induction l as [|f l IH]; [done|].
    rewrite noise_ticks_cons. unfold tick. rewrite Hs. cbn. by rewrite IH.
Qed.

End Loudness.

Section LoudItems.

Import MediastreamListener.

Variable toString : nat -> string.

Lemma on_silent_id detail_el c : on_silent toString detail_el c = c.
Proof. unfold on_silent. by destruct (get_property _ _). Qed.

Lemma get_set_property key v o key' :
  get_property key' (set_property key v o)
  = if String.eqb key key' then Some v else get_property key' o.
Proof.
  unfold get_property. induction o as [|[k x] o IH]; cbn.
  - rewrite String.eqb_sym. by destruct (String.eqb key' key).
  - destruct (String.eqb k key) eqn:Hk; cbn.
    + apply String.eqb_eq in Hk as ->.
      by destruct (String.eqb key key').
    + destruct (String.eqb k key') eqn:Hk'; cbn.
      * apply String.eqb_eq in Hk' as ->.
        rewrite String.eqb_sym in Hk. by rewrite Hk.
      * exact IH.
Qed.

Lemma handle_all_silent events : forall c,
  Forall is_silent events -> handle_all toString events c = c.
Proof.
  induction events as [|event events IH]; intros c Hall; [done|].
  apply Forall_cons in Hall as [Hev Hall].
  destruct event as [detail|detail_el]; [done|].
  cbn [handle_all fold_left]. fold (handle_all toString events).
  change (handle toString (mediastream_listener_silent detail_el) c)
    with (on_silent toString detail_el c).
  rewrite on_silent_id. by apply IH.
Qed.

(** X17. Nothing is ever taken out of the table of loud items. A key
    that has an entry keeps one through any further events, and silent
    events leave the component as it is: the listener for
    'mediastream-listener-silent' reads a property of the entry and
    removes nothing, so an element that has fallen silent stays in the
    table with the loudness of its last loud event. *)
Theorem loud_items_never_removed events : forall c,
  (forall key, is_Some (get_property key (loudItems c)) ->
               is_Some (get_property key (loudItems (handle_all toString events c))))
  /\ (Forall is_silent events -> handle_all toString events c = c).
Proof.
  induction events as [|event events IH]; intros c; [done|].
  split; [|apply handle_all_silent].
  cbn [handle_all fold_left]. fold (handle_all toString events (handle toString event c)).
  destruct (IH (handle toString event c)) as [Hkeep _].
  intros key Hkey. apply Hkeep. destruct event as [detail|detail_el]; cbn.
  - rewrite get_set_property. by destruct (String.eqb _ key).
  - by rewrite on_silent_id.
Qed.

Lemma handle_all_app events more c :
  handle_all toString (events ++ more) c
  = handle_all toString more (handle_all toString events c).
Proof. apply fold_left_app. Qed.

(** X18. One key, one entry. The table is indexed by the string an
    element turns into. When all elements turn into the same string,
    a table that starts empty never holds more than one entry, and
    after a loud event, followed by silent events only, its one entry
    is that of this last loud event, whichever elements were loud
    before. *)
Theorem loud_items_share_a_key events detail silent c :
  (forall a b, toString a = toString b) ->
  loudItems c = [] ->
  Forall is_silent silent ->
  List.length (loudItems (handle_all toString events c)) <= 1
  /\ loudItems
       (handle_all toString
          (events ++ mediastream_listener_loud detail :: silent) c)
     = [(toString (Detail.el detail), detail)].
Proof.
  intros Hkey Hempty Hsilent.
  assert (Hinv : forall events c,
             (loudItems c = [] \/ exists k d, loudItems c = [(toString k, d)]) ->
             loudItems (handle_all toString events c) = []
             \/ exists k d, loudItems (handle_all toString events c) = [(toString k, d)]).
  { clear -Hkey. intros events. induction events as [|event events IH]; intros c Hc; [done|].
    cbn [handle_all fold_left]. apply IH.
    destruct event as [detail|detail_el]; cbn.
    - right. exists (Detail.el detail), detail.
      destruct Hc as [->|(k & d & ->)]; [done|]. cbn.
      rewrite (Hkey k (Detail.el detail)). by rewrite String.eqb_refl.
    - by rewrite on_silent_id. }
  split.
  - destruct (Hinv events c (or_introl Hempty)) as [->|(k & d & ->)]; cbn; lia.
  - change (mediastream_listener_loud detail :: silent)
      with ([mediastream_listener_loud detail] ++ silent).
    rewrite app_assoc, handle_all_app.
    rewrite (handle_all_silent silent _ Hsilent), handle_all_app. cbn.
    destruct (Hinv events c (or_introl Hempty)) as [->|(k & d & ->)]; [done|].
    cbn. rewrite (Hkey k (Detail.el detail)). by rewrite String.eqb_refl.
Qed.

End LoudItems.

Section Loudest.

Import MediastreamListener.

Context {num : Type} {jsnum : JSNumber num}.

Variable noise : Detail.t -> num.

Hypothesis gt_irreflexive : forall a : num, num_gt a a = false.
Hypothesis gt_transitive : forall a b c : num,
  num_gt a b = true -> num_gt b c = true -> num_gt a c = true.

Lemma listen_loop_loudest this_el items : forall seen maxNoise maxItem,
  loudest_of noise this_el seen maxNoise maxItem ->
  exists maxNoise',
    loudest_of noise this_el (seen ++ items) maxNoise'
      (listen_loop noise this_el items maxNoise maxItem).
Proof.
  induction items as [|[key item] items IH]; intros seen maxNoise maxItem Hinv.
  - exists maxNoise. by rewrite app_nil_r.
  - cbn [listen_loop].
    replace (seen ++ (key, item) :: items)
      with ((seen ++ [(key, item)]) ++ items) by by rewrite <- app_assoc.
    destruct (Nat.eqb_spec (Detail.el item) this_el) as [Hself|Hother].
    { apply IH. destruct maxItem as [e|]; cbn in *.
      - destruct Hinv as (kv & Hin & He & Hn & Ha & Hmax).
        exists kv. repeat split; try done.
        + apply elem_of_app. by left.
        + by destruct Ha.
        + by destruct Ha.
        + intros kv' Hin' Ha'. apply elem_of_app in Hin' as [Hin'|Hin'];
            [by apply Hmax|].
          apply list_elem_of_singleton in Hin' as ->. by destruct Ha'.
      - destruct Hinv as [Hz Hnone]. split; [done|].
        intros kv Hin Ha. apply elem_of_app in Hin as [Hin|Hin];
          [by apply (Hnone kv)|].
        apply list_elem_of_singleton in Hin as ->. by destruct Ha. }
    destruct (num_gt (noise item) num_zero) eqn:Hpos; cbn [andb].
    2:{ apply IH. destruct maxItem as [e|]; cbn in *.
        - destruct Hinv as (kv & Hin & He & Hn & Ha & Hmax).
          exists kv. repeat split; try done.
          + apply elem_of_app. by left.
          + by destruct Ha.
          + by destruct Ha.
          + intros kv' Hin' Ha'. apply elem_of_app in Hin' as [Hin'|Hin'];
              [by apply Hmax|].
            apply list_elem_of_singleton in Hin' as ->.
            destruct Ha' as [_ Ha']. cbn in Ha'. congruence.
        - destruct Hinv as [Hz Hnone]. split; [done|].
          intros kv Hin Ha. apply elem_of_app in Hin as [Hin|Hin];
            [by apply (Hnone kv)|].
          apply list_elem_of_singleton in Hin as ->.
          destruct Ha as [_ Ha]. cbn in Ha. congruence. }
    destruct (num_gt (noise item) maxNoise) eqn:Hgt.
    + apply IH. cbn. exists (key, item). cbn. repeat split; try done.
      * apply elem_of_app. right. by apply list_elem_of_singleton.
      * intros kv' Hin' Ha'. apply elem_of_app in Hin' as [Hin'|Hin'].
        -- destruct maxItem as [e|]; cbn in Hinv.
           ++ destruct Hinv as (kv & Hin & He & Hn & Ha & Hmax).
              destruct (num_gt (noise kv'.2) (noise item)) eqn:Hc; [|done].
              rewrite <- (Hmax kv' Hin' Ha'). symmetry.
              by apply (gt_transitive _ (noise item)).
           ++ destruct Hinv as [Hz Hnone]. by destruct (Hnone kv' Hin').
        -- apply list_elem_of_singleton in Hin' as ->. apply gt_irreflexive.
    + apply IH. destruct maxItem as [e|]; cbn in *.
      * destruct Hinv as (kv & Hin & He & Hn & Ha & Hmax).
        exists kv. repeat split; try done.
        -- apply elem_of_app. by left.
        -- by destruct Ha.
        -- by destruct Ha.
        -- intros kv' Hin' Ha'. apply elem_of_app in Hin' as [Hin'|Hin'];
             [by apply Hmax|].
           by apply list_elem_of_singleton in Hin' as ->.
      * destruct Hinv as [Hz Hnone]. subst maxNoise. congruence.
Qed.

(** X19. [listen] returns the loudest other element. It returns null
    exactly when no entry of the table belongs to another element with
    a noise above zero; otherwise it returns the element of such an
    entry, never the listener's own, and no such entry is noisier.
    The comparison [>] is taken irreflexive and transitive, as it is on
    numbers. *)
Theorem listen_returns_loudest (c : t) :
  match listen noise c with
  | None => forall kv, kv ∈ loudItems c -> ~ audible noise (el c) kv.2
  | Some e =>
      e <> el c
      /\ exists kv, kv ∈ loudItems c /\ Detail.el kv.2 = e
           /\ audible noise (el c) kv.2
           /\ forall kv', kv' ∈ loudItems c -> audible noise (el c) kv'.2 ->
                num_gt (noise kv'.2) (noise kv.2) = false
  end.
Proof.
  unfold listen.
  destruct (listen_loop_loudest (el c) (loudItems c) [] num_zero None)
    as [maxNoise Hinv].
  { split; [done|]. intros kv Hin. by apply elem_of_nil in Hin. }
  rewrite app_nil_l in Hinv.
  destruct (listen_loop noise (el c) (loudItems c) num_zero None) as [e|];
    cbn in Hinv.
  - destruct Hinv as (kv & Hin & He & Hn & Ha & Hmax).
    split; [destruct Ha as [Ha _]; by rewrite <- He|].
    exists kv. repeat split; try done; try by destruct Ha.
    intros kv' Hin' Ha'. rewrite Hn. by apply Hmax.
  - by destruct Hinv.
Qed.

End Loudest.

(** * absolute-position-listener and absolute-rotation-listener *)

Section Absolute.

Import AbsoluteListener.

Context {num : Type} {jsnum : JSNumber num}.

Variable radToDeg : num -> num.
Variable stringify : @Coordinates num -> string.

Lemma tick_last newValue last :
  (tick stringify newValue last).1 = Some (stringify newValue).
Proof.
  unfold tick. destruct last as [s|]; [|done].
  destruct (String.eqb_spec s (stringify newValue)) as [->|]; done.
Qed.

Lemma absolute_ticks_cons newValue values last :
  ticks stringify (newValue :: values) last
  = ((ticks stringify values (Some (stringify newValue))).1,
     match (tick stringify newValue last).2 with
     | Some v => [v]
     | None => []
     end ++ (ticks stringify values (Some (stringify newValue))).2).
Proof.
  cbn [ticks]. pose proof (tick_last newValue last) as Hl.
  destruct (tick stringify newValue last) as [l [v|]]; cbn in Hl; subst l;
    by destruct (ticks stringify values (Some (stringify newValue))).
Qed.

Lemma absolute_ticks_app values more : forall last,
  ticks stringify (values ++ more) last
  = ((ticks stringify more (ticks stringify values last).1).1,
     (ticks stringify values last).2
     ++ (ticks stringify more (ticks stringify values last).1).2).
Proof.
  induction values as [|v values IH]; intros last.
  - cbn. by destruct (ticks stringify more last).
  - rewrite <- app_comm_cons, !absolute_ticks_cons, IH. cbn [fst snd].
    by rewrite app_assoc.
Qed.

(** X20. The listeners emit changes only. Over any sequence of
    computed values, what is emitted is a selection of them in order in
    which no value has the string of the one emitted before it, nor the
    first the string remembered from before; the string remembered
    afterwards is that of the latest value; and the first tick of a
    component, which remembers nothing yet, always emits. *)
Theorem absolute_changes_only values last :
  sublist (ticks stringify values last).2 values
  /\ no_repeat last (map stringify (ticks stringify values last).2)
  /\ (forall newValue,
        (ticks stringify (values ++ [newValue]) last).1
        = Some (stringify newValue))
  /\ (forall newValue,
        (ticks stringify (newValue :: values) None).2
        = newValue :: (ticks stringify values (Some (stringify newValue))).2).
Proof.
  split; [|split; [|split]].
  - revert last. induction values as [|v values IH]; intros last; [done|].
    rewrite absolute_ticks_cons. cbn [snd].
    unfold tick. destruct last as [s|]; cbn.
    + destruct (String.eqb s (stringify v)); cbn.
      * by apply sublist_cons.
      * by apply sublist_skip.
    + by apply sublist_skip.
  - revert last. induction values as [|v values IH]; intros last; [done|].
    rewrite absolute_ticks_cons. cbn [snd].
    specialize (IH (Some (stringify v))).
    unfold tick. destruct last as [s|]; cbn.
    + destruct (String.eqb_spec s (stringify v)) as [->|Hne]; cbn; [done|].
      split; [congruence|done].
    + done.
  - intros newValue. rewrite absolute_ticks_app. cbn [fst ticks].
    pose proof (tick_last newValue (ticks stringify values last).1) as Hl.
    by destruct (tick stringify newValue (ticks stringify values last).1).
  - intros newValue. by rewrite absolute_ticks_cons.
Qed.

Lemma sum_up_below below : forall (newValue : @Coordinates num) rest,
  Forall below_scene below ->
  sum_up (below ++ rest) newValue
  = sum_up rest
      (fold_left add (omap object3D below) newValue).
Proof.
  induction below as [|el below IH]; intros newValue rest Hall; [done|].
  apply Forall_cons in Hall as [[[v Hv] Hs] Hall].
  cbn. rewrite Hv, Hs. cbn. by apply IH.
Qed.

(** X21. The absolute position is the sum taken from the element
    upwards and stops below the scene. When the element and the
    ancestors [below] all have an [object3D] and none is the scene, and
    the next one up is the scene or has no [object3D], the result is
    zero with the values of [below] added one by one from the element
    up, whatever lies above; the absolute rotation is that sum of the
    angles, converted to degrees once at the end. *)
Theorem absolute_value_sums_below_scene below stop above :
  Forall below_scene below ->
  object3D stop = None \/ is_sceneEl stop = true ->
  _getAbsolutePosition (below ++ stop :: above)
  = fold_left add (omap object3D below)
      (mkCoordinates num_zero num_zero num_zero)
  /\ _getAbsoluteRotation radToDeg (below ++ stop :: above)
     = let sum := _getAbsolutePosition below in
       mkCoordinates (radToDeg (x sum)) (radToDeg (y sum)) (radToDeg (z sum)).
Proof.
  intros Hbelow Hstop.
  assert (Hsum : forall newValue : @Coordinates num,
             sum_up (below ++ stop :: above) newValue
             = fold_left add (omap object3D below) newValue).
  { intros newValue. rewrite sum_up_below by done. cbn.
    destruct Hstop as [->| ->]; [done|]. by destruct (object3D stop). }
  assert (Hsum' : forall newValue : @Coordinates num,
             sum_up below newValue
             = fold_left add (omap object3D below) newValue).
  { intros newValue. rewrite <- (app_nil_r below) at 1.
    by rewrite sum_up_below. }
  unfold _getAbsoluteRotation, _getAbsolutePosition.
  by rewrite Hsum, Hsum'.
Qed.

End Absolute.

(** * When a call throws *)

Section Throws.

Variable data : Data.
Variable templates : list Template.
Variable generateUUID : nat -> string.

Local Abbreviation inflate000 := (_inflate Part000 data templates generateUUID).






End Throws.


(** * The properties on the sample inputs *)


Lemma Q_gt_irreflexive (a : Q) : num_gt a a = false.
Proof.
  cbn. apply negb_false_iff, Qle_bool_iff, Qle_refl.
Qed.

Lemma Q_gt_transitive (a b c : Q) :
  num_gt a b = true -> num_gt b c = true -> num_gt a c = true.
Proof.
  cbn. rewrite !negb_true_iff. intros Hab Hbc.
  destruct (Qle_bool a c) eqn:Hac; [|done].
  apply Qle_bool_iff in Hac.
  assert (Hlt1 : (b < a)%Q).
  { apply Qnot_le_lt. intros H. apply Qle_bool_iff in H. congruence. }
  assert (Hlt2 : (c < b)%Q).
  { apply Qnot_le_lt. intros H. apply Qle_bool_iff in H. congruence. }
  exfalso. apply (Qlt_not_le c a); [|done]. by apply (Qlt_trans _ b).
Qed.

Lemma visibility_follows_flags_witness :
  exists r node' drawn',
    _inflate Avatar sample_data eye_templates sample_generateUUID
      sample_hands_mesh 0
    = Normal (r, node', drawn')
    /\ Object3D.visible node' = hands sample_data.
Proof.
  eexists _, _, _. split; [reflexivity|].
  exact (visibility_follows_flags Avatar sample_data eye_templates
           sample_generateUUID sample_hands_mesh 0 _ _ _ eq_refl).
Defined.


Lemma movement_ends_idling_witness :
  ReadyplayermeAvatar.isIdle
    (ReadyplayermeAvatar.run
       [ReadyplayermeAvatar.Moved ReadyplayermeAvatar.absolutePositionChanged;
        ReadyplayermeAvatar.Tick 16%Q] resting_component).1
  = false
  /\ (ReadyplayermeAvatar.run
        [ReadyplayermeAvatar.Moved ReadyplayermeAvatar.absolutePositionChanged;
         ReadyplayermeAvatar.Tick 16%Q] resting_component).2
     = [ReadyplayermeAvatar.idleMixer_stopAllAction].
Proof.
  assert (Hin : ReadyplayermeAvatar.absolutePositionChanged
                ∈ ReadyplayermeAvatar.listeners resting_component).
  { apply elem_of_cons. by left. }
  assert (Hne : ReadyplayermeAvatar.absolutePositionChanged
                <> ReadyplayermeAvatar.model_loaded) by discriminate.
  pose proof (movement_ends_idling ReadyplayermeAvatar.absolutePositionChanged
                16%Q resting_component eq_refl Hin Hne eq_refl eq_refl) as H.
  destruct (ReadyplayermeAvatar.run _ resting_component) as [c' effects].
  destruct H as (Hb & _ & He). split; [exact Hb|exact He].
Defined.


Lemma idle_needs_fifth_animation_witness :
  exists c' drawn',
    ReadyplayermeAvatar.on_model_loaded sample_data eye_templates
      sample_generateUUID (Some ["a"; "b"; "c"; "d"]) 0 sample_component
    = Normal (c', drawn')
    /\ forall events,
         (ReadyplayermeAvatar.run events c').2 = []
         /\ ReadyplayermeAvatar.isIdle (ReadyplayermeAvatar.run events c').1
            = false.
Proof.
  destruct (on_model_loaded_total sample_data eye_templates
              sample_generateUUID (Some ["a"; "b"; "c"; "d"]) 0
              sample_component sample_scene eq_refl)
    as (c' & drawn' & Hrun).
  exists c', drawn'. split; [exact Hrun|].
  destruct (idle_needs_fifth_animation sample_data eye_templates
              sample_generateUUID (Some ["a"; "b"; "c"; "d"]) 0
              sample_component c' drawn' eq_refl eq_refl Hrun)
    as (Hiff & _ & H).
  apply H. destruct (ReadyplayermeAvatar.idleMixer c'); [|reflexivity].
  destruct (proj1 Hiff eq_refl) as (clips & fifth & Hclips & Hfifth).
  inversion Hclips; subst. discriminate.
Defined.

Lemma update_keeps_last_model_witness :
  Element.attributes
    (ReadyplayermeAvatar.el
       (ReadyplayermeAvatar.updates
          (["a.glb"] ++ "b.glb" :: [EmptyString; EmptyString])
          sample_component))
  !! "gltf-model"
  = Some "b.glb".
Proof.
  assert (Hm : "b.glb" <> EmptyString) by discriminate.
  assert (Hc : Forall (fun m => m = EmptyString) [EmptyString; EmptyString])
    by (repeat constructor).
  exact (proj1 (update_keeps_last_model ["a.glb"] "b.glb"
                  [EmptyString; EmptyString] sample_component Hm Hc)).
Defined.

Lemma getLoudness_is_maximum_witness :
  (17 <= MediastreamListener._getLoudness [3; 200; 17])%N
  /\ (MediastreamListener._getLoudness [3; 200; 17] <= 255)%N.
Proof.
  destruct (getLoudness_is_maximum [3; 200; 17]%N) as (Hall & _ & _ & Hbytes).
  split.
  - apply Hall. apply elem_of_cons. right. apply elem_of_cons. right.
    apply elem_of_cons. by left.
  - apply Hbytes. repeat constructor; lia.
Defined.

Lemma noise_events_alternate_witness :
  (127 < MediastreamListener.Detail.loudness
           (MediastreamListener.Detail.make 7 200))%N.
Proof.
  apply (noise_events_alternate [[200]; [3]; [250]]%N
           (MediastreamListener.setMediaStream (MediastreamListener.init 7))).
  apply elem_of_cons. by left.
Defined.

Lemma noise_follows_last_frame_witness :
  MediastreamListener.isMakingNoise
    (MediastreamListener.ticks ([[200]] ++ [[3]])%N
       (MediastreamListener.setMediaStream (MediastreamListener.init 7))).1
  = false.
Proof.
  exact (proj1 (noise_follows_last_frame [[200]]%N [3]%N
                  (MediastreamListener.setMediaStream
                     (MediastreamListener.init 7))) eq_refl).
Defined.

Lemma loud_items_never_removed_witness :
  is_Some
    (MediastreamListener.get_property "[object HTMLElement]"
       (MediastreamListener.loudItems
          (MediastreamListener.handle_all sample_toString
             [MediastreamListener.mediastream_listener_silent 2]
             (MediastreamListener.on_loud sample_toString
                (MediastreamListener.Detail.make 2 200)
                (MediastreamListener.init 1))))).
Proof.
  apply (proj1 (loud_items_never_removed sample_toString
                  [MediastreamListener.mediastream_listener_silent 2]
                  (MediastreamListener.on_loud sample_toString
                     (MediastreamListener.Detail.make 2 200)
                     (MediastreamListener.init 1)))).
  by eexists.
Defined.

Lemma loud_items_share_a_key_witness :
  MediastreamListener.loudItems
    (MediastreamListener.handle_all sample_toString
       ([MediastreamListener.mediastream_listener_loud
           (MediastreamListener.Detail.make 2 200)]
        ++ MediastreamListener.mediastream_listener_loud
             (MediastreamListener.Detail.make 3 150)
           :: [MediastreamListener.mediastream_listener_silent 2])
       (MediastreamListener.init 1))
  = [("[object HTMLElement]", MediastreamListener.Detail.make 3 150)].
Proof.
  assert (Hkey : forall a b, sample_toString a = sample_toString b) by done.
  assert (Hs : Forall MediastreamListener.is_silent
                 [MediastreamListener.mediastream_listener_silent 2])
    by (repeat constructor).
  exact (proj2 (loud_items_share_a_key sample_toString
                  [MediastreamListener.mediastream_listener_loud
                     (MediastreamListener.Detail.make 2 200)]
                  (MediastreamListener.Detail.make 3 150)
                  [MediastreamListener.mediastream_listener_silent 2]
                  (MediastreamListener.init 1) Hkey eq_refl Hs)).
Defined.

Lemma listen_returns_loudest_witness :
  MediastreamListener.listen sample_noise sample_listener = Some 3
  /\ 3 <> MediastreamListener.el sample_listener.
Proof.
  pose proof (listen_returns_loudest sample_noise Q_gt_irreflexive
                Q_gt_transitive sample_listener) as H.
  change (MediastreamListener.listen sample_noise sample_listener)
    with (Some 3) in H.
  split; [reflexivity|exact (proj1 H)].
Defined.

Lemma absolute_value_sums_below_scene_witness :
  AbsoluteListener._getAbsolutePosition (sample_chain ++ sample_sceneEl :: [])
  = AbsoluteListener.mkCoordinates 11%Q 2%Q 3%Q.
Proof.
  assert (Hbelow : Forall AbsoluteListener.below_scene sample_chain).
  { repeat constructor; by eexists. }
  exact (proj1 (absolute_value_sums_below_scene (fun r => r * 57)%Q
                  sample_chain sample_sceneEl [] Hbelow (or_intror eq_refl))).
Defined.
